(** * aioextensions: a shallow embedding of [src/aioextensions/__init__.py]

    The development has two parts.

    - [ExecutorPool]: the replaceable executor singleton (class
      [ExecutorPool] of the source), as explicit state passing over a heap
      of executors.
    - The worker pool coordinator ([schedule], [resolve], [collect]): the
      asyncio program is embedded as a transition system.  A state holds the
      closure variables of [resolve], the frames of the coroutines and the
      objects of the event loop (tasks, futures, queues).  One transition
      runs one coroutine from a suspension point to its next suspension
      point, as the cooperative scheduler of asyncio does, or lets a task
      created by [schedule] finish, or calls a done-callback.  A coroutine
      that waits (for a future, an event, an item or room in a queue) can
      run once what it waits for is there.  Which of the coroutines that
      can run runs next, and when a task finishes, is left open: every
      statement proved for all schedules holds for the schedule the event
      loop picks, and for every order in which the tasks complete. *)

From Stdlib Require Import ZArith Lia.
From stdpp Require Import base gmap list strings.

Open Scope Z_scope.
Open Scope nat_scope.

(** ** Exceptions *)

Inductive exn :=
| ValueError (msg : string)
| RuntimeError (msg : string)
| KeyError (key : nat)
| InvalidStateError
| TaskError (code : Z).

(** ** ExecutorPool *)

Module ExecutorPool.

(** An executor of [concurrent.futures]: the size it was built with and,
    once [shutdown] was called on it, the [wait] flag of that call. *)
Record executor := Executor {
  max_workers : option Z;
  down : option bool
}.

(** [_pool] is a reference into the heap of executors ever built. *)
Record t := Pool {
  _pool : option nat;
  heap : list executor
}.

(** [__init__]: [self._pool = None]. *)
Definition init : t := {| _pool := None; heap := [] |}.

(** [Executor.shutdown(wait=wait)] on the executor at reference [r]. *)
Definition executor_shutdown (r : nat) (wait : bool) (h : list executor)
  : list executor :=
  match h !! r with
  | Some e => <[r := {| max_workers := max_workers e; down := Some wait |}]> h
  | None => h
  end.

(** [initialize(max_workers=...)].  [accepts] stands for the executor
    class [self._cls]: it tells whether its constructor takes
    [max_workers=mw] or raises.  The result is the state after the call
    and the exception, if one was raised: when the constructor raises,
    the old executor is already shut down and [_pool] still refers to
    it. *)
Definition initialize (accepts : option Z -> bool) (mw : option Z) (s : t)
  : t * option exn :=
  let h := match _pool s with
           | Some r => executor_shutdown r false (heap s)
           | None => heap s
           end in
  if accepts mw
  then ({| _pool := Some (length h);
           heap := h ++ [{| max_workers := mw; down := None |}] |}, None)
  else ({| _pool := _pool s; heap := h |},
        Some (ValueError "max_workers must be greater than 0")).

(** [shutdown(wait=...)]. *)
Definition shutdown (wait : bool) (s : t) : t :=
  match _pool s with
  | Some r => {| _pool := None; heap := executor_shutdown r wait (heap s) |}
  | None => s
  end.

(** The [pool] property. *)
Definition pool (s : t) : exn + nat :=
  match _pool s with
  | None => inl (RuntimeError "Must Call initialize first")
  | Some r => inr r
  end.

(** The [initialized] property. *)
Definition initialized (s : t) : bool :=
  match _pool s with
  | None => false
  | Some _ => true
  end.

(** [_pool], when set, refers to an executor of the heap. *)
Definition wf (s : t) : Prop :=
  match _pool s with
  | Some r => r < length (heap s)
  | None => True
  end.

(** [ThreadPoolExecutor] and [ProcessPoolExecutor] refuse a size that is
    not positive. *)
Definition positive_size (mw : option Z) : bool :=
  match mw with
  | Some n => (0 <? n)%Z
  | None => true
  end.

End ExecutorPool.

(** ** asyncio and itertools objects used by the coordinator *)

(** [asyncio.Queue(maxsize)].  A queue built with [maxsize <= 0] is never
    full. *)
Record queue (A : Type) := Queue {
  maxsize : Z;
  q_items : list A
}.
Arguments Queue {A} _ _.
Arguments maxsize {A} _.
Arguments q_items {A} _.

Definition qsize {A} (q : queue A) : nat := length (q_items q).

Definition full {A} (q : queue A) : bool :=
  if (maxsize q <=? 0)%Z then false
  else (maxsize q <=? Z.of_nat (qsize q))%Z.

Definition put_nowait {A} (x : A) (q : queue A) : queue A :=
  {| maxsize := maxsize q; q_items := q_items q ++ [x] |}.

(** [enumerate(iterable)]: the next count and what is left of the iterable. *)
Record enumerate (A : Type) := Enumerate {
  en_count : nat;
  en_rest : list A
}.
Arguments Enumerate {A} _ _.
Arguments en_count {A} _.
Arguments en_rest {A} _.

Definition enumerate_next {A} (e : enumerate A)
  : option ((nat * A) * enumerate A) :=
  match en_rest e with
  | [] => None
  | a :: rest =>
      Some ((en_count e, a), {| en_count := S (en_count e); en_rest := rest |})
  end.

(** [itertools.tee(it)]: two iterators over one underlying iterator, each
    with the deque of the values the other one fetched first. *)
Record tee (A : Type) := Tee {
  tee_it : enumerate A;
  deque1 : list (nat * A);
  deque2 : list (nat * A)
}.
Arguments Tee {A} _ _ _.
Arguments tee_it {A} _.
Arguments deque1 {A} _.
Arguments deque2 {A} _.

Definition tee_new {A} (it : enumerate A) : tee A :=
  {| tee_it := it; deque1 := []; deque2 := [] |}.

(** [next] on the first iterator ([stream]). *)
Definition tee_next1 {A} (s : tee A) : option ((nat * A) * tee A) :=
  match deque1 s with
  | x :: d => Some (x, {| tee_it := tee_it s; deque1 := d; deque2 := deque2 s |})
  | [] =>
      match enumerate_next (tee_it s) with
      | None => None
      | Some (x, it) =>
          Some (x, {| tee_it := it; deque1 := []; deque2 := deque2 s ++ [x] |})
      end
  end.

(** [next] on the second iterator ([stream_copy]). *)
Definition tee_next2 {A} (s : tee A) : option ((nat * A) * tee A) :=
  match deque2 s with
  | x :: d => Some (x, {| tee_it := tee_it s; deque1 := deque1 s; deque2 := d |})
  | [] =>
      match enumerate_next (tee_it s) with
      | None => None
      | Some (x, it) =>
          Some (x, {| tee_it := it; deque1 := deque1 s ++ [x]; deque2 := [] |})
      end
  end.

(** The future a worker creates, after [set_result]: its result is a
    reference to a task. *)
Inductive future := Resolved (t : nat).

Definition future_result (f : future) : nat :=
  match f with Resolved t => t end.

(** ** The coordinator *)

Section Coordinator.

Context {T : Type}.

(** An awaitable is opaque: what matters is how the computation ends, with
    a value or with an exception. *)
Inductive outcome :=
| Returns (v : T)
| Raises (e : exn).

(** The task [asyncio.create_task(awaitable)] makes: the computation it
    runs, whether it is done, and the done-callbacks still to call.  A
    callback [_done_callback] is the reference to the [wrapper] its
    closure holds. *)
Record task := Task {
  t_coro : outcome;
  t_done : bool;
  t_callbacks : list nat
}.

(** Frame of one [worker()] coroutine: where it is suspended, and the
    queue [done] it created.  [WStart]: created by [create_task], not yet
    run.  [WAwait index wrapper]: in [await schedule(awaitable)], waiting
    for [wrapper].  [WPut fut]: in [await done.put(future)], waiting for
    room.  [WEnd]: returned. *)
Inductive worker_pc :=
| WStart
| WAwait (index : nat) (wrapper : nat)
| WPut (fut : future)
| WEnd.

Record worker_frame := Frame {
  w_pc : worker_pc;
  w_done : option (queue future)
}.

(** The generator [resolve] returns: its body has not started, or it is
    suspended at [yield], or it has ended. *)
Inductive gen_pc := GenCreated | GenSuspended | GenClosed.

(** The coroutine [collect], with the [get_one] and [start_workers] it
    awaits.  [MLoop]: running, about to call [next] on the generator (the
    only point where it is not suspended).  [MSpawn index j]: [get_one
    (index)] is in [start_workers], suspended in the [force_loop_cycle]
    that precedes iteration [j].  [MWaitUp index]: in [workers_up.wait()].
    [MGet index w]: in [get()] on the queue of worker [w], which
    [store.pop(index)] gave.  [MReturned], [MRaised]: ended. *)
Inductive main_pc :=
| MLoop
| MSpawn (index j : nat)
| MWaitUp (index : nat)
| MGet (index : nat) (q : nat)
| MReturned (r : list T)
| MRaised (e : exn).

(** References are positions in the lists of objects: a worker task is the
    position of its frame in [frames], and so is a reference to the queue
    [done] that the frame holds ([store] maps an index to the worker whose
    queue will receive its result); a task is its position in [tasks]; a
    wrapper future is its position in [wrappers], [None] while pending and
    [Some t] once [set_result] gave it task [t]. *)
Record state := State {
  (* arguments: [has_len] tells whether [awaitables] has [__len__] *)
  awaitables : list outcome;
  has_len : bool;
  workers : Z;
  worker_greediness : Z;
  (* the generator and its closure *)
  gen : gen_pc;
  store : gmap nat nat;
  stream : tee outcome;
  stream_finished : bool;
  workers_up : bool;
  workers_tasks : gmap nat nat;
  (* objects of the event loop *)
  frames : list worker_frame;
  tasks : list task;
  wrappers : list (option nat);
  (* collect: where it is, and the list its comprehension is building *)
  main : main_pc;
  acc : list T;
  (* not a variable of the program: the history of
     [for index, awaitable in stream], as pairs (worker, index) *)
  claimed : list (nat * nat)
}.

Definition set_workers (x : Z) (st : state) : state :=
  {| awaitables := awaitables st; has_len := has_len st; workers := x;
     worker_greediness := worker_greediness st; gen := gen st;
     store := store st; stream := stream st;
     stream_finished := stream_finished st; workers_up := workers_up st;
     workers_tasks := workers_tasks st; frames := frames st;
     tasks := tasks st; wrappers := wrappers st; main := main st;
     acc := acc st; claimed := claimed st |}.

Definition set_gen (x : gen_pc) (st : state) : state :=
  {| awaitables := awaitables st; has_len := has_len st;
     workers := workers st;
     worker_greediness := worker_greediness st; gen := x;
     store := store st; stream := stream st;
     stream_finished := stream_finished st; workers_up := workers_up st;
     workers_tasks := workers_tasks st; frames := frames st;
     tasks := tasks st; wrappers := wrappers st; main := main st;
     acc := acc st; claimed := claimed st |}.

Definition set_store (x : gmap nat nat) (st : state) : state :=
  {| awaitables := awaitables st; has_len := has_len st;
     workers := workers st;
     worker_greediness := worker_greediness st; gen := gen st;
     store := x; stream := stream st;
     stream_finished := stream_finished st; workers_up := workers_up st;
     workers_tasks := workers_tasks st; frames := frames st;
     tasks := tasks st; wrappers := wrappers st; main := main st;
     acc := acc st; claimed := claimed st |}.

Definition set_stream (x : tee outcome) (st : state) : state :=
  {| awaitables := awaitables st; has_len := has_len st;
     workers := workers st;
     worker_greediness := worker_greediness st; gen := gen st;
     store := store st; stream := x;
     stream_finished := stream_finished st; workers_up := workers_up st;
     workers_tasks := workers_tasks st; frames := frames st;
     tasks := tasks st; wrappers := wrappers st; main := main st;
     acc := acc st; claimed := claimed st |}.

Definition set_stream_finished (x : bool) (st : state) : state :=
  {| awaitables := awaitables st; has_len := has_len st;
     workers := workers st;
     worker_greediness := worker_greediness st; gen := gen st;
     store := store st; stream := stream st;
     stream_finished := x; workers_up := workers_up st;
     workers_tasks := workers_tasks st; frames := frames st;
     tasks := tasks st; wrappers := wrappers st; main := main st;
     acc := acc st; claimed := claimed st |}.

Definition set_workers_up (x : bool) (st : state) : state :=
  {| awaitables := awaitables st; has_len := has_len st;
     workers := workers st;
     worker_greediness := worker_greediness st; gen := gen st;
     store := store st; stream := stream st;
     stream_finished := stream_finished st; workers_up := x;
     workers_tasks := workers_tasks st; frames := frames st;
     tasks := tasks st; wrappers := wrappers st; main := main st;
     acc := acc st; claimed := claimed st |}.

Definition set_workers_tasks (x : gmap nat nat) (st : state) : state :=
  {| awaitables := awaitables st; has_len := has_len st;
     workers := workers st;
     worker_greediness := worker_greediness st; gen := gen st;
     store := store st; stream := stream st;
     stream_finished := stream_finished st; workers_up := workers_up st;
     workers_tasks := x; frames := frames st;
     tasks := tasks st; wrappers := wrappers st; main := main st;
     acc := acc st; claimed := claimed st |}.

Definition set_frames (x : list worker_frame) (st : state) : state :=
  {| awaitables := awaitables st; has_len := has_len st;
     workers := workers st;
     worker_greediness := worker_greediness st; gen := gen st;
     store := store st; stream := stream st;
     stream_finished := stream_finished st; workers_up := workers_up st;
     workers_tasks := workers_tasks st; frames := x;
     tasks := tasks st; wrappers := wrappers st; main := main st;
     acc := acc st; claimed := claimed st |}.

Definition set_tasks (x : list task) (st : state) : state :=
  {| awaitables := awaitables st; has_len := has_len st;
     workers := workers st;
     worker_greediness := worker_greediness st; gen := gen st;
     store := store st; stream := stream st;
     stream_finished := stream_finished st; workers_up := workers_up st;
     workers_tasks := workers_tasks st; frames := frames st;
     tasks := x; wrappers := wrappers st; main := main st;
     acc := acc st; claimed := claimed st |}.

Definition set_wrappers (x : list (option nat)) (st : state) : state :=
  {| awaitables := awaitables st; has_len := has_len st;
     workers := workers st;
     worker_greediness := worker_greediness st; gen := gen st;
     store := store st; stream := stream st;
     stream_finished := stream_finished st; workers_up := workers_up st;
     workers_tasks := workers_tasks st; frames := frames st;
     tasks := tasks st; wrappers := x; main := main st;
     acc := acc st; claimed := claimed st |}.

Definition set_main (x : main_pc) (st : state) : state :=
  {| awaitables := awaitables st; has_len := has_len st;
     workers := workers st;
     worker_greediness := worker_greediness st; gen := gen st;
     store := store st; stream := stream st;
     stream_finished := stream_finished st; workers_up := workers_up st;
     workers_tasks := workers_tasks st; frames := frames st;
     tasks := tasks st; wrappers := wrappers st; main := x;
     acc := acc st; claimed := claimed st |}.

Definition set_acc (x : list T) (st : state) : state :=
  {| awaitables := awaitables st; has_len := has_len st;
     workers := workers st;
     worker_greediness := worker_greediness st; gen := gen st;
     store := store st; stream := stream st;
     stream_finished := stream_finished st; workers_up := workers_up st;
     workers_tasks := workers_tasks st; frames := frames st;
     tasks := tasks st; wrappers := wrappers st; main := main st;
     acc := x; claimed := claimed st |}.

Definition set_claimed (x : list (nat * nat)) (st : state) : state :=
  {| awaitables := awaitables st; has_len := has_len st;
     workers := workers st;
     worker_greediness := worker_greediness st; gen := gen st;
     store := store st; stream := stream st;
     stream_finished := stream_finished st; workers_up := workers_up st;
     workers_tasks := workers_tasks st; frames := frames st;
     tasks := tasks st; wrappers := wrappers st; main := main st;
     acc := acc st; claimed := x |}.

(** *** schedule *)

(** [schedule(awaitable)]: creates the future [wrapper], the task of
    [awaitable] and registers [_done_callback] (which holds [wrapper]) on
    the task.  Nothing of the awaitable runs here. *)
Definition schedule (awaitable : outcome) (st : state) : nat * state :=
  let wrapper := length (wrappers st) in
  let st1 := set_wrappers (wrappers st ++ [None]) st in
  let t := {| t_coro := awaitable; t_done := false;
              t_callbacks := [wrapper] |} in
  (wrapper, set_tasks (tasks st1 ++ [t]) st1).

(** [_done_callback(future)] of the closure that holds [wrapper]. *)
Definition _done_callback (wrapper : nat) (fut : nat) (st : state) : state :=
  match wrappers st !! wrapper with
  | Some None => set_wrappers (<[wrapper := Some fut]> (wrappers st)) st
  | _ => st
  end.

(** The event loop runs task [t] to its end. *)
Definition task_finish (t : nat) (st : state) : option state :=
  match tasks st !! t with
  | Some tk =>
      if t_done tk then None
      else Some (set_tasks (<[t := {| t_coro := t_coro tk; t_done := true;
                                      t_callbacks := t_callbacks tk |}]>
                              (tasks st)) st)
  | None => None
  end.

(** The event loop calls the next done-callback of the finished task [t]. *)
Definition task_callback (t : nat) (st : state) : option state :=
  match tasks st !! t with
  | Some tk =>
      if t_done tk then
        match t_callbacks tk with
        | wrapper :: cbs =>
            Some (_done_callback wrapper t
                    (set_tasks (<[t := {| t_coro := t_coro tk;
                                          t_done := true;
                                          t_callbacks := cbs |}]>
                                  (tasks st)) st))
        | [] => None
        end
      else None
  | None => None
  end.

(** [Task.result()]: the value, or the exception the task ended with. *)
Definition task_result (t : nat) (st : state) : outcome :=
  match tasks st !! t with
  | Some tk => if t_done tk then t_coro tk else Raises InvalidStateError
  | None => Raises InvalidStateError
  end.

(** *** worker *)

Definition set_frame (w : nat) (fr : worker_frame) (st : state) : state :=
  set_frames (<[w := fr]> (frames st)) st.

(** The loop [for index, awaitable in stream] of worker [w], from its head
    to the suspension in [await schedule(...)], or to the end of the
    coroutine. *)
Definition worker_loop (w : nat) (done : queue future) (st : state) : state :=
  match tee_next1 (stream st) with
  | Some ((index, awaitable), s) =>
      let st1 := set_stream s st in
      let st2 := set_store (<[index := w]> (store st1)) st1 in
      let '(wrapper, st3) := schedule awaitable st2 in
      set_frame w {| w_pc := WAwait index wrapper; w_done := Some done |}
        (set_claimed (claimed st3 ++ [(w, index)]) st3)
  | None =>
      set_frame w {| w_pc := WEnd; w_done := Some done |}
        (set_stream_finished true (set_workers_up true st))
  end.

(** [await done.put(future)] and what follows it. *)
Definition worker_put (w : nat) (done : queue future) (fut : future)
    (st : state) : state :=
  if full done
  then set_frame w {| w_pc := WPut fut; w_done := Some done |} st
  else worker_loop w (put_nowait fut done) (set_workers_up true st).

(** One run of worker [w], from where it is suspended. *)
Definition worker (w : nat) (st : state) : option state :=
  match frames st !! w with
  | Some fr =>
      match w_pc fr, w_done fr with
      | WStart, _ =>
          Some (worker_loop w (Queue (worker_greediness st) []) st)
      | WAwait index wrapper, Some done =>
          match wrappers st !! wrapper with
          | Some (Some r) => Some (worker_put w done (Resolved r) st)
          | _ => None
          end
      | WPut fut, Some done =>
          if full done then None else Some (worker_put w done fut st)
      | _, _ => None
      end
  | None => None
  end.

(** *** resolve *)

(** Calling [resolve] makes a generator; its body has not started. *)
Definition resolve (aws : list outcome) (len : bool) (ws g : Z) : state :=
  {| awaitables := aws; has_len := len; workers := ws;
     worker_greediness := g; gen := GenCreated; store := ∅;
     stream := tee_new (Enumerate 0 []); stream_finished := false;
     workers_up := false; workers_tasks := ∅; frames := [];
     tasks := []; wrappers := []; main := MLoop; acc := [];
     claimed := [] |}.

Inductive gen_result :=
| GYield (index : nat)
| GStop
| GRaise (e : exn).

(** [for index, _ in stream_copy: yield get_one(index)]. *)
Definition resolve_loop (st : state) : gen_result * state :=
  match tee_next2 (stream st) with
  | Some ((index, _), s) => (GYield index, set_gen GenSuspended (set_stream s st))
  | None => (GStop, set_gen GenClosed st)
  end.

(** [next] on the generator. *)
Definition resolve_next (st : state) : gen_result * state :=
  match gen st with
  | GenCreated =>
      if (workers st <? 1)%Z then
        (GRaise (ValueError "workers must be >= 1"), set_gen GenClosed st)
      else if (worker_greediness st <? 0)%Z then
        (GRaise (ValueError "worker_greediness must be >= 0"),
         set_gen GenClosed st)
      else
        let st1 :=
          if has_len st
          then set_workers
                 (Z.min (workers st) (Z.of_nat (length (awaitables st)))) st
          else st in
        resolve_loop
          (set_workers_tasks ∅
             (set_workers_up false
                (set_stream_finished false
                   (set_stream (tee_new (Enumerate 0 (awaitables st1)))
                      (set_store ∅ st1)))))
  | GenSuspended => resolve_loop st
  | GenClosed => (GStop, st)
  end.

(** [get()] on the queue of worker [w], then the two unwrappings of
    [get_one]: [await awaitable] gives the task and [.result()] its value
    or its exception; back in [collect], the value joins the list under
    construction. *)
Definition get_one_get (index w : nat) (st : state) : option state :=
  match frames st !! w with
  | Some fr =>
      match w_done fr with
      | Some done =>
          match q_items done with
          | fut :: rest =>
              let st1 :=
                set_frame w {| w_pc := w_pc fr;
                               w_done := Some (Queue (maxsize done) rest) |}
                  st in
              Some match task_result (future_result fut) st1 with
                   | Returns v => set_main MLoop (set_acc (acc st1 ++ [v]) st1)
                   | Raises e => set_main (MRaised e) st1
                   end
          | [] => Some (set_main (MGet index w) st)
          end
      | None => None
      end
  | None => None
  end.

(** [store.pop(index)] of [get_one], a [KeyError] when the index is not in
    [store]. *)
Definition get_one_pop (index : nat) (st : state) : option state :=
  match store st !! index with
  | Some w => get_one_get index w (set_store (delete index (store st)) st)
  | None => Some (set_main (MRaised (KeyError index)) st)
  end.

(** [await workers_up.wait()] at the end of [start_workers]. *)
Definition start_workers_wait (index : nat) (st : state) : option state :=
  if workers_up st then get_one_pop index st
  else Some (set_main (MWaitUp index) st).

(** [start_workers] from iteration [j] of its loop to the next
    [force_loop_cycle]. *)
Definition start_workers (index j : nat) (st : state) : option state :=
  if (Z.of_nat j <? workers st)%Z then
    if stream_finished st then start_workers_wait index st
    else
      Some (set_main (MSpawn index (S j))
              (set_workers_tasks (<[j := length (frames st)]> (workers_tasks st))
                 (set_frames (frames st ++ [{| w_pc := WStart; w_done := None |}])
                    st)))
  else start_workers_wait index st.

(** [get_one(index)] from its start. *)
Definition get_one (index : nat) (st : state) : option state :=
  if decide (workers_tasks st = ∅) then start_workers index 0 st
  else get_one_pop index st.

(** *** collect *)

(** [collect(...)] makes a coroutine that has not started; [resolve] is
    called when it first runs. *)
Definition collect (aws : list outcome) (len : bool) (ws g : Z) : state :=
  resolve aws len ws g.

(** What [collect] does with the answer of the generator: it awaits the
    accessor, returns the tuple, or lets the exception through. *)
Definition collect_resume (r : gen_result * state) : option state :=
  match r with
  | (GYield index, st1) => get_one index st1
  | (GStop, st1) => Some (set_main (MReturned (acc st1)) st1)
  | (GRaise e, st1) => Some (set_main (MRaised e) st1)
  end.

(** One run of the coroutine [collect] (and of what it awaits). *)
Definition collect_step (st : state) : option state :=
  match main st with
  | MLoop => collect_resume (resolve_next st)
  | MSpawn index j => start_workers index j st
  | MWaitUp index => if workers_up st then get_one_pop index st else None
  | MGet index w =>
      match frames st !! w with
      | Some fr =>
          match w_done fr with
          | Some done =>
              match q_items done with
              | [] => None
              | _ => get_one_get index w st
              end
          | None => None
          end
      | None => None
      end
  | MReturned _ | MRaised _ => None
  end.

(** *** The event loop *)

(** What the event loop can do next: run [collect], run worker [w], let
    task [t] finish, or call a done-callback of task [t]. *)
Inductive action :=
| Main
| Worker (w : nat)
| TaskDone (t : nat)
| Callback (t : nat).

(** [collect] is running (not suspended): nothing else can run. *)
Definition main_busy (st : state) : bool :=
  match main st with
  | MLoop => true
  | _ => false
  end.

(** [None]: the action cannot run in this state. *)
Definition step (a : action) (st : state) : option state :=
  match a with
  | Main => collect_step st
  | Worker w => if main_busy st then None else worker w st
  | TaskDone t => if main_busy st then None else task_finish t st
  | Callback t => if main_busy st then None else task_callback t st
  end.

(** A run of the event loop along a schedule. *)
Fixpoint run (sched : list action) (st : state) : option state :=
  match sched with
  | [] => Some st
  | a :: sched' =>
      match step a st with
      | Some st' => run sched' st'
      | None => None
      end
  end.





(** No coroutine, task or callback can run. *)
Definition quiescent (st : state) : Prop := ∀ a, step a st = None.

(** *** What a sequential evaluation of the awaitables gives *)


(** *** Invariant of the coordinator *)

(** Number of indices handed out by [stream]. *)
Definition nclaimed (st : state) : nat := length (claimed st).

(** Number of results [collect] took out of the queues, number of entries
    it popped from [store], and number of indices it took from
    [stream_copy]. *)
Definition got (st : state) : nat :=
  match main st with
  | MRaised _ => S (length (acc st))
  | _ => length (acc st)
  end.

Definition popped (st : state) : nat :=
  match main st with
  | MGet _ _ | MRaised _ => S (length (acc st))
  | _ => length (acc st)
  end.

Definition copy_pos (st : state) : nat :=
  match main st with
  | MLoop | MReturned _ => length (acc st)
  | _ => S (length (acc st))
  end.

Definition enum (l : list outcome) : list (nat * outcome) :=
  imap (λ i a, (i, a)) l.

Definition slice (l : list outcome) (a b : nat) : list (nat * outcome) :=
  drop a (take b (enum l)).

(** The state of [tee(enumerate(l))] when [stream] gave [c] items and
    [stream_copy] gave [k]. *)
Definition tee_at (l : list outcome) (c k : nat) : tee outcome :=
  {| tee_it := Enumerate (c `max` k) (drop (c `max` k) l);
     deque1 := slice l c (c `max` k);
     deque2 := slice l k (c `max` k) |}.

(** The indices a worker holds: in its queue, then the one in its hands. *)
Definition pc_pending (pc : worker_pc) : list nat :=
  match pc with
  | WAwait index _ => [index]
  | WPut fut => [future_result fut]
  | _ => []
  end.

Definition frame_items (fr : worker_frame) : list nat :=
  match w_done fr with
  | Some done => future_result <$> q_items done
  | None => []
  end.

Definition pend (fr : worker_frame) : list nat :=
  frame_items fr ++ pc_pending (w_pc fr).

(** The task of index [i] has finished. *)
Definition task_done (st : state) (i : nat) : Prop :=
  ∃ tk, tasks st !! i = Some tk ∧ t_done tk = true.

(** The task and the wrapper that [schedule] made for index [i] are at
    position [i]; the task runs the awaitable of index [i]; its callback
    is still to call and the wrapper is pending, or the task is done, the
    callback was called and the wrapper holds the task. *)
Definition task_ok (st : state) (i : nat) : Prop :=
  ∃ tk a, tasks st !! i = Some tk ∧ awaitables st !! i = Some a ∧
    t_coro tk = a ∧
    ((t_callbacks tk = [i] ∧ wrappers st !! i = Some None) ∨
     (t_done tk = true ∧ t_callbacks tk = [] ∧
      wrappers st !! i = Some (Some i))).

(** What holds of the frame [fr] of worker [w], [gotn] being the number of
    results [collect] took out of the queues.  The worker holds, in
    increasing order, exactly the indices it claimed that [collect] has
    not taken ([fo_pend]); the results in its queue are of finished tasks
    ([fo_done]); it awaits the wrapper of the index it claimed
    ([fo_await]); its queue was built with [worker_greediness]
    ([fo_queue]) and holds no more than that when it is positive
    ([fo_cap]); a worker waits in [put] only for a positive
    [worker_greediness] ([fo_block]); after a [put] the worker claimed
    the next index or found the stream exhausted ([fo_next], [fo_end]);
    as long as [workers_up] is not set no worker has put a result
    ([fo_up]). *)
Record frame_ok (st : state) (gotn : nat) (w : nat) (fr : worker_frame)
  : Prop := {
  fo_pend :
    pend fr = filter (λ i, claimed st !! i = Some (w, i))
                (seq gotn (nclaimed st - gotn));
  fo_done : ∀ i, i ∈ frame_items fr ∨ w_pc fr = WPut (Resolved i) →
                 task_done st i;
  fo_await : ∀ i wr, w_pc fr = WAwait i wr → wr = i;
  fo_queue :
    match w_pc fr with
    | WStart => w_done fr = None
    | _ => ∃ q, w_done fr = Some q ∧ maxsize q = worker_greediness st
    end;
  fo_end : w_pc fr = WEnd → nclaimed st = length (awaitables st);
  fo_next : ∀ i, i ∈ frame_items fr →
                 S i < nclaimed st ∨ nclaimed st = length (awaitables st);
  fo_up : workers_up st = false →
          frame_items fr = [] ∧
          (w_pc fr = WStart ∨ ∃ i wr, w_pc fr = WAwait i wr);
  fo_cap : ∀ q, w_done fr = Some q → (0 < maxsize q)%Z →
                (Z.of_nat (qsize q) ≤ maxsize q)%Z;
  fo_block : ∀ fut, w_pc fr = WPut fut → (0 < worker_greediness st)%Z
}.

(** What holds of the closure and of the event loop, whatever [collect]
    is doing; [popn] and [copyn] are the numbers of entries popped from
    [store] and of indices taken from [stream_copy]. *)
Record inv_core (ws : Z) (gotn popn copyn : nat) (st : state) : Prop := {
  ir_greed : (0 ≤ worker_greediness st)%Z;
  ir_workers :
    (workers st ≤ ws)%Z ∧
    (has_len st = true → (workers st ≤ Z.of_nat (length (awaitables st)))%Z) ∧
    (0 < length (awaitables st) → (1 ≤ workers st)%Z);
  ir_tee : stream st = tee_at (awaitables st) (nclaimed st) copyn;
  ir_c_le : nclaimed st ≤ length (awaitables st);
  ir_copy_le : copyn ≤ length (awaitables st);
  ir_heap : length (tasks st) = nclaimed st ∧
            length (wrappers st) = nclaimed st;
  ir_tasks : ∀ i, i < nclaimed st → task_ok st i;
  ir_claimed : ∀ i, i < nclaimed st →
                    ∃ w, claimed st !! i = Some (w, i) ∧
                         w < length (frames st);
  ir_frames : ∀ w fr, frames st !! w = Some fr → frame_ok st gotn w fr;
  ir_store : ∀ i, popn ≤ i < nclaimed st →
                  ∃ w, claimed st !! i = Some (w, i) ∧
                       store st !! i = Some w;
  ir_wt : ∀ i, workers_tasks st !! i =
               if decide (i < length (frames st)) then Some i else None;
  ir_nframes : (Z.of_nat (length (frames st)) ≤ workers st)%Z;
  ir_acc : take (length (acc st)) (awaitables st) = Returns <$> acc st;
  ir_got : gotn ≤ nclaimed st;
  ir_next : 0 < length (acc st) →
            length (acc st) < nclaimed st ∨
            nclaimed st = length (awaitables st);
  ir_up : workers_up st = true →
          0 < nclaimed st ∨ nclaimed st = length (awaitables st);
  ir_fin : stream_finished st = true →
           workers_up st = true ∧ nclaimed st = length (awaitables st)
}.

(** What holds at each point of [collect]. *)
Definition main_ok (st : state) : Prop :=
  match main st with
  | MLoop =>
      gen st = GenSuspended ∧ (acc st = [] ↔ frames st = [])
  | MSpawn index j =>
      gen st = GenSuspended ∧ index = 0 ∧ acc st = [] ∧
      j = length (frames st) ∧ 1 ≤ j
  | MWaitUp index =>
      gen st = GenSuspended ∧ index = 0 ∧ acc st = [] ∧ frames st ≠ []
  | MGet index w =>
      gen st = GenSuspended ∧ index = length (acc st) ∧
      frames st ≠ [] ∧ claimed st !! index = Some (w, index)
  | MReturned r =>
      gen st = GenClosed ∧ r = acc st ∧
      length (acc st) = length (awaitables st)
  | MRaised e =>
      gen st = GenSuspended ∧
      awaitables st !! length (acc st) = Some (Raises e)
  end.

(** The invariant once the body of [resolve] has started; [ws] is the
    [workers] argument of the call. *)
Definition inv_run (ws : Z) (st : state) : Prop :=
  inv_core ws (got st) (popped st) (copy_pos st) st ∧ main_ok st.

(** The invariant: the coroutine has not started, or [inv_run]. *)
Definition inv (ws : Z) (st : state) : Prop :=
  (st = collect (awaitables st) (has_len st) ws (worker_greediness st) ∧
   (1 ≤ ws)%Z ∧ (0 ≤ worker_greediness st)%Z) ∨
  inv_run ws st.

(** *** A bound on the number of transitions *)










(** What a run of a worker, a task or a callback leaves unchanged. *)
Definition same_main (st st' : state) : Prop :=
  main st' = main st ∧ acc st' = acc st ∧ gen st' = gen st ∧
  length (frames st') = length (frames st) ∧
  awaitables st' = awaitables st ∧
  (∀ i x, claimed st !! i = Some x → claimed st' !! i = Some x).

(** The call expressions [resolve(...)] and [collect(...)].  [resolve] has
    a [yield] and [collect] is [async def]: the call builds the generator
    or the coroutine and runs no statement of the body, so it cannot
    raise. *)
Definition resolve_call (aws : list outcome) (len : bool) (ws g : Z)
  : exn + state :=
  inr (resolve aws len ws g).

Definition collect_call (aws : list outcome) (len : bool) (ws g : Z)
  : exn + state :=
  inr (collect aws len ws g).

(** Completed results a worker holds that [collect] has not taken: those
    in its queue, and the one of a [put] that waits for room. *)
Definition unconsumed (fr : worker_frame) : nat :=
  length (frame_items fr)
  + match w_pc fr with
    | WPut _ => 1
    | _ => 0
    end.

(** The arguments of the call never change. *)
Definition same_args (st st' : state) : Prop :=
  awaitables st' = awaitables st ∧ has_len st' = has_len st ∧
  worker_greediness st' = worker_greediness st.

End Coordinator.

(** The run of the event loop when the task of index 0 is slow: worker 1
    completes the tasks of indices 1 and 2 while [collect] waits for the
    result of index 0. *)
Definition slow_first_schedule : list action :=
  [Main; Worker 0; Main; Worker 1; Main;
   TaskDone 1; Callback 1; Worker 1; Main;
   TaskDone 2; Callback 2; Worker 1].

(** ** Calls on an [ExecutorPool], and the module's two pools *)

(** A call a client makes on an [ExecutorPool]. *)
Inductive pool_call :=
| Initialize (max_workers : option Z)
| Shutdown (wait : bool).

(** The state after one call; an exception [initialize] lets through is
    dropped here, the state it leaves is kept. *)
Definition pool_apply (cls : option Z -> bool) (c : pool_call)
    (s : ExecutorPool.t) : ExecutorPool.t :=
  match c with
  | Initialize mw => (ExecutorPool.initialize cls mw s).1
  | Shutdown wait => ExecutorPool.shutdown wait s
  end.

(** The state after a sequence of calls, first call first. *)
Definition pool_calls (cls : option Z -> bool) (cs : list pool_call)
    (s : ExecutorPool.t) : ExecutorPool.t :=
  foldl (λ s c, pool_apply cls c s) s cs.

(** The size given by the last [initialize] of a sequence of calls. *)
Definition last_size (cs : list pool_call) : option (option Z) :=
  match last cs with
  | Some (Initialize mw) => Some mw
  | _ => None
  end.

(** [CPU_COUNT = cpu_count() or 1]: [os.cpu_count()] gives [None] when the
    number of CPUs is not known, and [0 or 1] is [1]. *)
Definition CPU_COUNT (cpu_count : option Z) : Z :=
  match cpu_count with
  | Some n => if (n =? 0)%Z then 1%Z else n
  | None => 1%Z
  end.

(** The two pools of the module, [THREAD_POOL = ExecutorPool
    (ThreadPoolExecutor)] and [PROCESS_POOL = ExecutorPool
    (ProcessPoolExecutor)]. *)
Record pools := Pools {
  THREAD_POOL : ExecutorPool.t;
  PROCESS_POOL : ExecutorPool.t
}.

(** The pools when the module has just been imported. *)
Definition pools_init : pools :=
  {| THREAD_POOL := ExecutorPool.init; PROCESS_POOL := ExecutorPool.init |}.

Section Unblock.

Context {T : Type}.

(** What [os.cpu_count()] gave at import, and the two executor classes:
    whether the constructor takes [max_workers] or raises. *)
Variable cpu_count : option Z.
Variable ThreadPoolExecutor ProcessPoolExecutor : option Z -> bool.

(** [await loop.run_in_executor(executor, partial(function, ...))]: [submit]
    refuses an executor that was shut down; otherwise the call of
    [function] runs in the executor and the coroutine gets what it returns
    or raises.  [r] is a reference the [pool] property gave; one outside
    the heap does not occur ([ExecutorPool.wf]). *)
Definition run_in_executor (r : nat) (function : @outcome T)
    (s : ExecutorPool.t) : @outcome T :=
  match ExecutorPool.heap s !! r with
  | Some e =>
      match ExecutorPool.down e with
      | Some _ =>
          Raises (RuntimeError "cannot schedule new futures after shutdown")
      | None => function
      end
  | None => Raises (RuntimeError "cannot schedule new futures after shutdown")
  end.

(** [unblock(function, ...)]; [function] stands for the call of the
    function on its arguments. *)
Definition unblock (function : @outcome T) (g : pools)
  : pools * @outcome T :=
  let '(tp, err) :=
    if ExecutorPool.initialized (THREAD_POOL g) then (THREAD_POOL g, None)
    else ExecutorPool.initialize ThreadPoolExecutor
           (Some (10 * CPU_COUNT cpu_count)%Z) (THREAD_POOL g) in
  let g1 := {| THREAD_POOL := tp; PROCESS_POOL := PROCESS_POOL g |} in
  match err with
  | Some e => (g1, Raises e)
  | None =>
      match ExecutorPool.pool tp with
      | inl e => (g1, Raises e)
      | inr r => (g1, run_in_executor r function tp)
      end
  end.






End Unblock.

(** ** Tasks in flight, and the generator of [resolve] on its own *)

Section Flight.

Context {T : Type}.

(** Indices of the tasks [schedule] created that have not finished. *)
Definition in_flight (st : @state T) : list nat :=
  filter (λ i, t_done <$> tasks st !! i = Some false)
    (seq 0 (length (tasks st))).

(** The index whose task a worker waits for in [await schedule(...)]. *)
Definition awaits (fr : worker_frame) : list nat :=
  match w_pc fr with
  | WAwait index _ => [index]
  | _ => []
  end.

Definition awaited (st : @state T) : list nat := frames st ≫= awaits.

(** [n] calls of [next] on the generator, none of the accessors it yields
    being awaited: what the calls gave, and the state at the end. *)
Fixpoint resolve_nexts (n : nat) (st : @state T)
  : list gen_result * @state T :=
  match n with
  | 0 => ([], st)
  | S n' =>
      let '(r, st1) := resolve_next st in
      let '(rs, st2) := resolve_nexts n' st1 in
      (r :: rs, st2)
  end.

(** What a run of [collect] leaves unchanged: the tasks, and where each
    worker is suspended. *)
Definition keeps_workers (st st' : @state T) : Prop :=
  tasks st' = tasks st ∧
  ∀ w fr, frames st !! w = Some fr →
          ∃ fr', frames st' !! w = Some fr' ∧ w_pc fr' = w_pc fr.

(** Every task in flight is awaited by a worker. *)
Definition flight_ok (st : @state T) : Prop :=
  ∀ i, i ∈ in_flight st → i ∈ awaited st.

(** [store] holds no entry that [collect] popped, and none for an index
    that no worker claimed. *)
Definition store_ok (st : @state T) : Prop :=
  ∀ i, is_Some (store st !! i) → popped st ≤ i < nclaimed st.

End Flight.

(** * Proofs *)

Ltac dinv H :=
  destruct H as [Hgr Hwk Htee Hcle Hkle Hheap Htasks Hcl Hfr Hsto Hwt Hnf
                 Hacc Hgot Hnext Hup Hfin].


Section CoordinatorProofs.

Context {T : Type}.
Implicit Types st : @state T.
Implicit Types l : list (@outcome T).

(** ** Lists, [tee] and sums *)

Lemma enum_lookup l i : enum l !! i = (λ a, (i, a)) <$> l !! i.
Proof. unfold enum. by rewrite list_lookup_imap. Qed.

Lemma length_enum l : length (enum l) = length l.
Proof. unfold enum. by rewrite length_imap. Qed.

Lemma slice_nil l a b : b ≤ a → slice l a b = [].
Proof.
  intros H. unfold slice. apply drop_ge. rewrite length_take. lia.
Qed.

Lemma slice_cons l a b x :
  a < b → l !! a = Some x → slice l a b = (a, x) :: slice l (S a) b.
Proof.
  intros Hab Hx. unfold slice. apply drop_S.
  rewrite lookup_take_lt by done. by rewrite enum_lookup, Hx.
Qed.

Lemma slice_snoc l a b x :
  a ≤ b → l !! b = Some x → slice l a (S b) = slice l a b ++ [(b, x)].
Proof.
  intros Hab Hx. unfold slice.
  rewrite (take_S_r _ _ (b, x)) by (by rewrite enum_lookup, Hx).
  apply drop_app_le. rewrite length_take, length_enum.
  apply lookup_lt_Some in Hx. lia.
Qed.

Lemma tee_next1_at l c k :
  c ≤ length l → k ≤ length l →
  tee_next1 (tee_at l c k) =
    match l !! c with
    | Some a => Some ((c, a), tee_at l (S c) k)
    | None => None
    end.
Proof.
  intros Hc Hk. unfold tee_next1, tee_at; simpl.
  destruct (l !! c) as [a|] eqn:Ha.
  - destruct (decide (c < k)) as [Hlt|Hge].
    + replace (c `max` k) with k by lia.
      replace (S c `max` k) with k by lia.
      by rewrite (slice_cons _ _ _ a).
    + replace (c `max` k) with c by lia.
      replace (S c `max` k) with (S c) by lia.
      rewrite (slice_nil _ c c) by lia.
      unfold enumerate_next; simpl.
      rewrite (drop_S _ a) by done.
      rewrite (slice_nil _ (S c) (S c)) by lia.
      by rewrite (slice_snoc _ _ _ a) by (done || lia).
  - apply lookup_ge_None in Ha.
    replace (c `max` k) with c by lia.
    rewrite slice_nil by lia. unfold enumerate_next; simpl.
    by rewrite drop_ge by lia.
Qed.

Lemma tee_next2_at l c k :
  c ≤ length l → k ≤ length l →
  tee_next2 (tee_at l c k) =
    match l !! k with
    | Some a => Some ((k, a), tee_at l c (S k))
    | None => None
    end.
Proof.
  intros Hc Hk. unfold tee_next2, tee_at; simpl.
  destruct (l !! k) as [a|] eqn:Ha.
  - destruct (decide (k < c)) as [Hlt|Hge].
    + replace (c `max` k) with c by lia.
      replace (c `max` S k) with c by lia.
      by rewrite (slice_cons _ _ _ a).
    + replace (c `max` k) with k by lia.
      replace (c `max` S k) with (S k) by lia.
      rewrite (slice_nil _ k k) by lia.
      unfold enumerate_next; simpl.
      rewrite (drop_S _ a) by done.
      rewrite (slice_nil _ (S k) (S k)) by lia.
      by rewrite (slice_snoc _ _ _ a) by (done || lia).
  - apply lookup_ge_None in Ha.
    replace (c `max` k) with k by lia.
    rewrite slice_nil by lia. unfold enumerate_next; simpl.
    by rewrite drop_ge by lia.
Qed.

Lemma filter_iff_in {A} (P1 P2 : A → Prop)
    `{!∀ x, Decision (P1 x), !∀ x, Decision (P2 x)} (l : list A) :
  (∀ x, x ∈ l → P1 x ↔ P2 x) → filter P1 l = filter P2 l.
Proof.
  induction l as [|a l IH]; intros Hiff; [done|].
  rewrite !filter_cons. rewrite IH by (intros; apply Hiff; by right).
  apply decide_ext, Hiff. by left.
Qed.

Lemma filter_none {A} (P : A → Prop) `{!∀ x, Decision (P x)} (l : list A) :
  (∀ x, x ∈ l → ¬ P x) → filter P l = [].
Proof.
  induction l as [|a l IH]; intros Hno; [done|].
  rewrite filter_cons_False by (apply Hno; by left).
  apply IH. intros x Hx. apply Hno. by right.
Qed.

Lemma filter_claim (cl : list (nat * nat)) (w w0 g : nat) :
  g ≤ length cl →
  filter (λ i, (cl ++ [(w0, length cl)]) !! i = Some (w, i))
    (seq g (S (length cl) - g)) =
  filter (λ i, cl !! i = Some (w, i)) (seq g (length cl - g))
  ++ (if decide (w = w0) then [length cl] else []).
Proof.
  intros Hg. replace (S (length cl) - g) with ((length cl - g) + 1) by lia.
  rewrite seq_app, filter_app. f_equal.
  - apply filter_iff_in. intros i Hi.
    apply elem_of_seq in Hi. by rewrite lookup_app_l by lia.
  - replace (g + (length cl - g)) with (length cl) by lia. simpl.
    rewrite filter_cons, filter_nil.
    rewrite lookup_app_r, Nat.sub_diag by lia. simpl.
    repeat case_decide; simplify_eq; done.
Qed.

Lemma filter_got (cl : list (nat * nat)) (w k c : nat) :
  k < c →
  filter (λ i, cl !! i = Some (w, i)) (seq k (c - k)) =
  (if decide (cl !! k = Some (w, k)) then [k] else [])
  ++ filter (λ i, cl !! i = Some (w, i)) (seq (S k) (c - S k)).
Proof.
  intros Hk. replace (c - k) with (S (c - S k)) by lia. simpl.
  rewrite filter_cons. by case_decide.
Qed.



(** ** Tasks, callbacks and workers keep the invariant *)

Lemma frame_ok_transport st st' g g' w fr :
  frame_ok st g w fr →
  worker_greediness st' = worker_greediness st →
  awaitables st' = awaitables st →
  filter (λ i, claimed st' !! i = Some (w, i)) (seq g' (nclaimed st' - g')) =
  filter (λ i, claimed st !! i = Some (w, i)) (seq g (nclaimed st - g)) →
  (∀ i, task_done st i → task_done st' i) →
  nclaimed st ≤ nclaimed st' →
  nclaimed st' ≤ length (awaitables st) →
  (workers_up st = true → workers_up st' = true) →
  frame_ok st' g' w fr.
Proof.
  intros [H1 H2 H3 H4 H5 H6 H7 H8 H9] Hg Ha Hf Hd Hc Hn Hu. split.
  - by rewrite Hf.
  - intros i Hi. apply Hd, H2, Hi.
  - done.
  - by rewrite Hg.
  - rewrite Ha. intros Hpc. specialize (H5 Hpc). lia.
  - rewrite Ha. intros i Hi. specialize (H6 i Hi). lia.
  - intros Hup. apply H7. destruct (workers_up st); [|done].
    by rewrite Hu in Hup.
  - done.
  - rewrite Hg. done.
Qed.

Lemma task_done_insert st t tk tk' i :
  tasks st !! t = Some tk → t_done tk' = true →
  task_done st i → task_done (set_tasks (<[t := tk']> (tasks st)) st) i.
Proof.
  intros Ht Hd [tk0 [H0 H1]]. unfold task_done; simpl.
  destruct (decide (t = i)) as [->|Hne].
  - exists tk'. split; [|done]. apply list_lookup_insert_eq.
    by apply lookup_lt_Some in Ht.
  - exists tk0. by rewrite list_lookup_insert_ne.
Qed.

Lemma inv_core_task_finish ws a b c st t st' :
  inv_core ws a b c st → task_finish t st = Some st' →
  inv_core ws a b c st'.
Proof.
  intros Hi Hs. unfold task_finish in Hs.
  destruct (tasks st !! t) as [tk|] eqn:Ht; [|done].
  destruct (t_done tk) eqn:Hd; simplify_eq.
  dinv Hi. split; simpl; try done.
  - by rewrite length_insert.
  - intros i Hlt. destruct (Htasks i Hlt) as (tk0 & a0 & H1 & H2 & H3 & H4).
    unfold task_ok; simpl. destruct (decide (t = i)) as [->|Hne].
    + simplify_eq. eexists _, _. split.
      { apply list_lookup_insert_eq. by eapply lookup_lt_Some. }
      split; [done|]. split; [done|]. simpl.
      destruct H4 as [?|[? ?]]; [by left|congruence].
    + exists tk0, a0. by rewrite list_lookup_insert_ne.
  - intros w fr Hw. eapply frame_ok_transport; eauto.
    intros i. by apply task_done_insert with tk.
Qed.

Lemma inv_core_task_callback ws a b c st t st' :
  inv_core ws a b c st → task_callback t st = Some st' →
  inv_core ws a b c st'.
Proof.
  intros Hi Hs. unfold task_callback in Hs.
  destruct (tasks st !! t) as [tk|] eqn:Ht; [|done].
  destruct (t_done tk) eqn:Hd; [|done].
  destruct (t_callbacks tk) as [|wr cbs] eqn:Hcb; simplify_eq.
  dinv Hi.
  assert (t < nclaimed st) as Hlt.
  { apply lookup_lt_Some in Ht. lia. }
  destruct (Htasks t Hlt) as (tk0 & a0 & H1 & H2 & H3 & H4).
  simplify_eq. destruct H4 as [[H4 H5]|[_ [H4 _]]]; [|congruence].
  rewrite Hcb in H4. simplify_eq.
  unfold _done_callback; simpl. rewrite H5.
  split; simpl; try done.
  - by rewrite !length_insert.
  - intros i Hlti.
    destruct (Htasks i Hlti) as (tk0 & a0 & H1' & H2' & H3' & H4').
    unfold task_ok; simpl. destruct (decide (t = i)) as [->|Hne].
    + simplify_eq. eexists _, _. split.
      { apply list_lookup_insert_eq. by eapply lookup_lt_Some. }
      split; [done|]. split; [done|]. simpl. right.
      split; [done|]. split; [done|].
      apply list_lookup_insert_eq. lia.
    + exists tk0, a0. by rewrite !list_lookup_insert_ne.
  - intros w fr Hw. eapply frame_ok_transport; eauto.
    intros i. by apply (task_done_insert st t tk).
Qed.

Lemma pend_range st g w fr i :
  frame_ok st g w fr → i ∈ pend fr →
  g ≤ i < nclaimed st ∧ claimed st !! i = Some (w, i).
Proof.
  intros Hok Hi. rewrite (fo_pend _ _ _ _ Hok) in Hi.
  apply list_elem_of_filter in Hi as [Hp Hs].
  apply elem_of_seq in Hs. split; [lia|done].
Qed.

Lemma task_done_app st tk i :
  task_done st i → task_done (set_tasks (tasks st ++ [tk]) st) i.
Proof.
  intros (tk0 & H0 & H1). exists tk0. split; [|done]. simpl.
  rewrite lookup_app_l; [done|]. by eapply lookup_lt_Some.
Qed.

Lemma worker_loop_inv ws a b c st w fr0 dq :
  inv_core ws a b c st →
  frames st !! w = Some fr0 →
  future_result <$> q_items dq = pend fr0 →
  maxsize dq = worker_greediness st →
  (∀ i, i ∈ future_result <$> q_items dq → task_done st i) →
  (workers_up st = true ∨ q_items dq = []) →
  ((0 < maxsize dq)%Z → (Z.of_nat (qsize dq) ≤ maxsize dq)%Z) →
  inv_core ws a b c (worker_loop w dq st).
Proof.
  intros Hi Hw Hitems Hmax Hdone Hupq Hcap. dinv Hi.
  pose proof (Hfr _ _ Hw) as Hok0.
  destruct Hheap as [Hlt Hlw].
  unfold worker_loop. rewrite Htee, tee_next1_at by done.
  destruct (awaitables st !! nclaimed st) as [aw|] eqn:Haw.
  - (* the worker claims index [nclaimed st] *)
    pose proof (lookup_lt_Some _ _ _ Haw) as Hlen.
    unfold schedule, set_frame; simpl.
    assert (∀ w', filter (λ i, (claimed st ++ [(w, nclaimed st)]) !! i
                               = Some (w', i))
                    (seq a (S (nclaimed st) - a)) =
                  filter (λ i, claimed st !! i = Some (w', i))
                    (seq a (nclaimed st - a))
                  ++ (if decide (w' = w) then [nclaimed st] else []))
      as Hfilter.
    { intros w'. by apply filter_claim. }
    split; unfold nclaimed in *; simpl;
      rewrite ?length_app, ?length_insert; simpl;
      rewrite ?Nat.add_1_r; try done; try lia.
    + intros i Hlti. unfold task_ok; simpl.
      destruct (decide (i = length (claimed st))) as [->|Hne].
      * eexists _, _. rewrite lookup_app_r by lia.
        rewrite Hlt, Nat.sub_diag. simpl. split; [done|].
        split; [done|]. split; [done|]. left. simpl. rewrite Hlw.
        split; [done|]. rewrite lookup_app_r by lia.
        by rewrite Hlw, Nat.sub_diag.
      * destruct (Htasks i ltac:(lia)) as (tk0 & a0 & H1 & H2 & H3 & H4).
        exists tk0, a0. rewrite !lookup_app_l by lia. done.
    + intros i Hlti.
      destruct (decide (i = length (claimed st))) as [->|Hne].
      * exists w. rewrite lookup_app_r by lia. rewrite Nat.sub_diag.
        split; [done|]. by eapply lookup_lt_Some.
      * destruct (Hcl i ltac:(lia)) as (w' & H1 & H2).
        exists w'. by rewrite lookup_app_l by lia.
    + intros w' fr Hw'.
      destruct (decide (w' = w)) as [->|Hne].
      * rewrite list_lookup_insert_eq in Hw' by (by eapply lookup_lt_Some).
        simplify_eq. split; unfold nclaimed; simpl;
          rewrite ?length_app; simpl; rewrite ?Nat.add_1_r.
        -- unfold pend, frame_items; simpl. rewrite Hitems.
           rewrite Hfilter, decide_True by done.
           by rewrite (fo_pend _ _ _ _ Hok0).
        -- intros i [Hin|?]; [|done]. unfold frame_items in Hin; simpl in Hin.
           apply (task_done_app
                    (set_wrappers _ (set_store _ (set_stream _ st)))).
           by apply Hdone.
        -- intros i wr ?. by simplify_eq.
        -- eauto.
        -- done.
        -- intros i Hin. unfold frame_items in Hin; simpl in Hin.
           rewrite Hitems in Hin.
           apply (pend_range _ _ _ _ _ Hok0) in Hin. unfold nclaimed in Hin.
           left. lia.
        -- intros Hup'. destruct Hupq as [?|Hq]; [congruence|].
           unfold frame_items; simpl. rewrite Hq. eauto.
        -- intros q ?. by simplify_eq.
        -- done.
      * rewrite list_lookup_insert_ne in Hw' by done.
        eapply frame_ok_transport; [by apply Hfr|..];
          unfold nclaimed; simpl; rewrite ?length_app; simpl;
          rewrite ?Nat.add_1_r; try done; try lia.
        -- rewrite Hfilter, decide_False by done. by rewrite app_nil_r.
        -- intros i Hd.
           by apply (task_done_app
                       (set_wrappers _ (set_store _ (set_stream _ st)))).
    + intros i Hlti.
      destruct (decide (i = length (claimed st))) as [->|Hne].
      * exists w. rewrite lookup_app_r by lia. rewrite Nat.sub_diag.
        split; [done|]. by rewrite lookup_insert_eq.
      * destruct (Hsto i ltac:(lia)) as (w' & H1 & H2).
        exists w'. rewrite lookup_app_l by lia.
        by rewrite lookup_insert_ne.
    + intros Hf. specialize (Hfin Hf). lia.
  - (* the stream is exhausted *)
    pose proof (lookup_ge_None_1 _ _ Haw) as Hlen.
    unfold set_frame; simpl.
    split; unfold nclaimed in *; simpl;
      rewrite ?length_insert; try done; try lia.
    + intros w' fr Hw'.
      destruct (decide (w' = w)) as [->|Hne].
      * rewrite list_lookup_insert_eq in Hw' by (by eapply lookup_lt_Some).
        simplify_eq. split; unfold nclaimed; simpl.
        -- unfold pend, frame_items; simpl. rewrite Hitems, app_nil_r.
           by rewrite (fo_pend _ _ _ _ Hok0).
        -- intros i [Hin|?]; [|done]. unfold frame_items in Hin; simpl in Hin.
           by apply Hdone.
        -- done.
        -- eauto.
        -- lia.
        -- intros. right. lia.
        -- done.
        -- intros q ?. by simplify_eq.
        -- done.
      * rewrite list_lookup_insert_ne in Hw' by done.
        eapply frame_ok_transport; [by apply Hfr|..]; done.
Qed.

Lemma inv_core_set_up ws a b c st :
  inv_core ws a b c st →
  0 < nclaimed st ∨ nclaimed st = length (awaitables st) →
  inv_core ws a b c (set_workers_up true st).
Proof.
  intros Hi Hc. dinv Hi. split; simpl; try done.
  - intros w fr Hw. eapply frame_ok_transport; [by apply Hfr|..]; done.
  - intros Hf. split; [done|]. by apply Hfin.
Qed.

Lemma full_nil (g : Z) : full (Queue g ([] : list future)) = false.
Proof. unfold full, qsize; simpl. by destruct (g <=? 0)%Z eqn:E. Qed.

Lemma full_pos (q : queue future) : full q = true → (0 < maxsize q)%Z.
Proof. unfold full. destruct (Z.leb_spec (maxsize q) 0); [done|lia]. Qed.

Lemma put_nowait_cap (q : queue future) fut :
  full q = false → (0 < maxsize (put_nowait fut q))%Z →
  (Z.of_nat (qsize (put_nowait fut q)) ≤ maxsize (put_nowait fut q))%Z.
Proof.
  unfold full, put_nowait, qsize. simpl. rewrite length_app. simpl.
  destruct (Z.leb_spec (maxsize q) 0); [lia|].
  destruct (Z.leb_spec (maxsize q) (Z.of_nat (length (q_items q)))); [done|].
  lia.
Qed.

Lemma worker_put_inv ws a b c st w fr0 dq fut :
  inv_core ws a b c st →
  frames st !! w = Some fr0 →
  w_done fr0 = Some dq →
  pend fr0 = (future_result <$> q_items dq) ++ [future_result fut] →
  task_done st (future_result fut) →
  inv_core ws a b c (worker_put w dq fut st).
Proof.
  intros Hi Hw Hdone Hpend Htd.
  pose proof (ir_frames _ _ _ _ _ Hi _ _ Hw) as Hok0.
  assert (maxsize dq = worker_greediness st) as Hmax.
  { pose proof (fo_queue _ _ _ _ Hok0) as Hq.
    destruct (w_pc fr0); [congruence|..];
      destruct Hq as (q & Hq1 & Hq2); congruence. }
  assert (frame_items fr0 = future_result <$> q_items dq) as Hitems.
  { unfold frame_items. by rewrite Hdone. }
  assert (future_result fut < nclaimed st) as Hlt.
  { apply (pend_range _ _ _ _ (future_result fut)) in Hok0 as [? _]; [lia|].
    rewrite Hpend. apply elem_of_app. right. by left. }
  unfold worker_put. destruct (full dq) eqn:Hfull.
  - dinv Hi. unfold set_frame.
    split; simpl; rewrite ?length_insert; try done.
    intros w' fr Hw'. destruct (decide (w' = w)) as [->|Hne].
    + rewrite list_lookup_insert_eq in Hw' by (by eapply lookup_lt_Some).
      simplify_eq. destruct Hok0 as [H1 H2 H3 H4 H5 H6 H7 H8 H9].
      split; simpl; try done.
      * unfold pend, frame_items; simpl. by rewrite <- Hpend.
      * intros i [Hin|Heq].
        -- apply H2. left. by rewrite Hitems.
        -- simplify_eq. done.
      * eauto.
      * intros i Hin. apply H6. by rewrite Hitems.
      * intros Hup'. destruct (H7 Hup') as [Hnil _].
        rewrite Hitems in Hnil. apply fmap_nil_inv in Hnil.
        destruct dq as [m q]; simpl in *; subst q.
        by rewrite full_nil in Hfull.
      * intros q ?. simplify_eq. by apply H8.
      * intros _ _. rewrite <- Hmax. by apply full_pos.
    + rewrite list_lookup_insert_ne in Hw' by done.
      eapply frame_ok_transport; [by apply Hfr|..]; done.
  - eapply (worker_loop_inv _ _ _ _ (set_workers_up true st)).
    + apply inv_core_set_up; [done|lia].
    + done.
    + simpl. by rewrite fmap_app.
    + done.
    + intros i Hin. simpl in Hin. rewrite fmap_app in Hin.
      apply elem_of_app in Hin as [Hin|Hin].
      * apply (fo_done _ _ _ _ Hok0). left. by rewrite Hitems.
      * apply list_elem_of_singleton in Hin. by subst.
    + by left.
    + by apply put_nowait_cap.
Qed.

Lemma worker_inv ws a b c st w st' :
  inv_core ws a b c st → worker w st = Some st' → inv_core ws a b c st'.
Proof.
  intros Hi Hs. unfold worker in Hs.
  destruct (frames st !! w) as [fr0|] eqn:Hw; [|done].
  pose proof (ir_frames _ _ _ _ _ Hi _ _ Hw) as Hok0.
  destruct (w_pc fr0) as [|index wr|fut|] eqn:Hpc.
  - simplify_eq. pose proof (fo_queue _ _ _ _ Hok0) as Hq.
    rewrite Hpc in Hq.
    eapply worker_loop_inv; eauto.
    + unfold pend, frame_items. by rewrite Hq, Hpc.
    + simpl. intros i Hin. by apply elem_of_nil in Hin.
    + unfold qsize. simpl. lia.
  - destruct (w_done fr0) as [dq|] eqn:Hdone; [|done].
    destruct (wrappers st !! wr) as [[r|]|] eqn:Hwr; simplify_eq.
    assert (wr = index) as ->.
    { by eapply (fo_await _ _ _ _ Hok0). }
    assert (index < nclaimed st) as Hlt.
    { apply (pend_range _ _ _ _ index) in Hok0 as [? _]; [lia|].
      unfold pend. rewrite Hpc. apply elem_of_app. right. by left. }
    destruct (ir_tasks _ _ _ _ _ Hi _ Hlt) as (tk & a0 & H1 & H2 & H3 & H4).
    destruct H4 as [[_ H4]|(H4 & H5 & H6)]; [congruence|].
    simplify_eq.
    eapply worker_put_inv; eauto.
    + unfold pend, frame_items. by rewrite Hdone, Hpc.
    + by exists tk.
  - destruct (w_done fr0) as [dq|] eqn:Hdone; [|done].
    destruct (full dq) eqn:Hfull; simplify_eq.
    eapply worker_put_inv; eauto.
    + unfold pend, frame_items. by rewrite Hdone, Hpc.
    + apply (fo_done _ _ _ _ Hok0). right. rewrite Hpc. by destruct fut.
  - done.
Qed.


Lemma worker_loop_same st w dq : same_main st (worker_loop w dq st).
Proof.
  unfold worker_loop, schedule, set_frame.
  repeat case_match; simplify_eq; repeat split; simpl;
    rewrite ?length_insert; try done.
  intros i x Hx. rewrite lookup_app_l; [done|]. by eapply lookup_lt_Some.
Qed.

Lemma worker_same st w st' : worker w st = Some st' → same_main st st'.
Proof.
  unfold worker, worker_put. intros Hs.
  repeat case_match; simplify_eq;
    first [ apply worker_loop_same
          | apply (worker_loop_same (set_workers_up true st))
          | unfold set_frame; repeat split; simpl;
            rewrite ?length_insert; done ].
Qed.

Lemma task_finish_same st t st' : task_finish t st = Some st' → same_main st st'.
Proof.
  unfold task_finish. intros Hs. repeat case_match; simplify_eq.
  repeat split; done.
Qed.

Lemma task_callback_same st t st' :
  task_callback t st = Some st' → same_main st st'.
Proof.
  unfold task_callback, _done_callback. intros Hs.
  repeat case_match; simplify_eq; repeat split; done.
Qed.

Lemma main_ok_same st st' : same_main st st' → main_ok st → main_ok st'.
Proof.
  intros (Hm & Ha & Hg & Hf & Haw & Hc). unfold main_ok.
  rewrite Hm, Ha, Hg, Haw.
  assert (frames st' = [] ↔ frames st = []) as Hnil.
  { destruct (frames st'), (frames st); simpl in *; done. }
  destruct (main st); rewrite ?Hf, ?Hnil; try done.
  intros (? & ? & ? & ?). eauto.
Qed.

Lemma inv_run_same ws st st' :
  same_main st st' → inv_run ws st →
  inv_core ws (got st) (popped st) (copy_pos st) st' → inv_run ws st'.
Proof.
  intros Hs [_ Hm] Hc. pose proof Hs as (Hm' & Ha & _).
  split; [|by eapply main_ok_same].
  unfold got, popped, copy_pos in *. by rewrite Hm', Ha.
Qed.

(** ** [collect] keeps the invariant *)

Lemma inv_core_set_main ws a b c st m :
  inv_core ws a b c st → inv_core ws a b c (set_main m st).
Proof.
  intros Hi. dinv Hi. split; simpl; try done.
  intros w fr Hw. eapply frame_ok_transport; [by apply Hfr|..]; done.
Qed.

(** [collect] takes the head of the queue of worker [w]: it is the result
    for index [k]. *)
Lemma queue_head ws k p c st w :
  inv_core ws k p c st →
  claimed st !! k = Some (w, k) →
  ∃ fr dq, frames st !! w = Some fr ∧ w_done fr = Some dq ∧
    pend fr = k :: filter (λ i, claimed st !! i = Some (w, i))
                     (seq (S k) (nclaimed st - S k)).
Proof.
  intros Hi Hk. pose proof (lookup_lt_Some _ _ _ Hk) as Hlt.
  destruct (ir_claimed _ _ _ _ _ Hi k Hlt) as (w' & H1 & H2).
  simplify_eq. apply lookup_lt_is_Some in H2 as [fr Hw].
  pose proof (ir_frames _ _ _ _ _ Hi _ _ Hw) as Hok.
  pose proof (fo_pend _ _ _ _ Hok) as Hp.
  rewrite filter_got, decide_True in Hp by done. simpl in Hp.
  exists fr. pose proof (fo_queue _ _ _ _ Hok) as Hq.
  destruct (w_pc fr) eqn:Hpc.
  - unfold pend, frame_items in Hp. by rewrite Hq, Hpc in Hp.
  - destruct Hq as (q & Hq & _). eauto.
  - destruct Hq as (q & Hq & _). eauto.
  - destruct Hq as (q & Hq & _). eauto.
Qed.

Lemma get_one_get_core ws k st w fr dq fut rest :
  inv_core ws k (S k) (S k) st →
  claimed st !! k = Some (w, k) →
  frames st !! w = Some fr → w_done fr = Some dq →
  q_items dq = fut :: rest →
  future_result fut = k ∧
  (S k < nclaimed st ∨ nclaimed st = length (awaitables st)) ∧
  task_done st k ∧
  inv_core ws (S k) (S k) (S k)
    (set_frame w {| w_pc := w_pc fr;
                    w_done := Some (Queue (maxsize dq) rest) |} st).
Proof.
  intros Hi Hk Hw Hdq Hit.
  destruct (queue_head _ _ _ _ _ _ Hi Hk) as (fr' & dq' & H1 & H2 & Hp).
  simplify_eq. pose proof (lookup_lt_Some _ _ _ Hk) as Hlt.
  pose proof (ir_frames _ _ _ _ _ Hi _ _ Hw) as Hok.
  assert (frame_items fr = future_result fut :: (future_result <$> rest))
    as Hfi.
  { unfold frame_items. by rewrite Hdq, Hit. }
  unfold pend in Hp. rewrite Hfi in Hp. simpl in Hp.
  injection Hp as Hhd Htl.
  assert (k ∈ frame_items fr) as Hin.
  { rewrite Hfi, Hhd. by left. }
  split; [done|]. split; [by apply (fo_next _ _ _ _ Hok)|].
  split; [apply (fo_done _ _ _ _ Hok); by left|].
  dinv Hi. unfold set_frame.
  split; simpl; rewrite ?length_insert; try done; try (fold (nclaimed st); lia).
  intros w' fr' Hw'. destruct (decide (w' = w)) as [->|Hne].
  - rewrite list_lookup_insert_eq in Hw' by (by eapply lookup_lt_Some).
    simplify_eq. destruct Hok as [G1 G2 G3 G4 G5 G6 G7 G8 G9].
    split; simpl; try done.
    + intros i [Hi|Hi]; apply G2; [left|by right].
      rewrite Hfi. by right.
    + destruct (w_pc fr); [congruence|..]; destruct G4 as (q & ? & ?);
        simplify_eq; eauto.
    + intros i Hi. apply G6. rewrite Hfi. by right.
    + intros Hup'. destruct (G7 Hup') as [Hnil _]. by rewrite Hfi in Hnil.
    + intros q ? Hpos. simplify_eq. specialize (G8 _ Hdq Hpos).
      unfold qsize in *. rewrite Hit in G8. simpl in *. lia.
  - rewrite list_lookup_insert_ne in Hw' by done.
    eapply frame_ok_transport; [by apply Hfr|..]; try done.
    simpl. symmetry. rewrite filter_got, decide_False by (done || congruence).
    done.
Qed.

Lemma get_one_get_inv ws k st w :
  inv_core ws k (S k) (S k) st →
  k = length (acc st) →
  claimed st !! k = Some (w, k) →
  gen st = GenSuspended →
  ∃ st', get_one_get k w st = Some st' ∧ inv_run ws st'.
Proof.
  intros Hi Hk Hcl' Hgen.
  destruct (queue_head _ _ _ _ _ _ Hi Hcl') as (fr & dq & Hw & Hdq & Hp).
  unfold get_one_get. rewrite Hw, Hdq.
  assert (frames st ≠ []) as Hne.
  { intros Hnil. by rewrite Hnil in Hw. }
  destruct (q_items dq) as [|fut rest] eqn:Hit.
  - eexists. split; [done|]. split.
    + unfold got, popped, copy_pos; simpl. rewrite <- Hk.
      by apply inv_core_set_main.
    + unfold main_ok; simpl. by rewrite <- Hk.
  - destruct (get_one_get_core _ _ _ _ _ _ _ _ Hi Hcl' Hw Hdq Hit)
      as (Hfut & Hnx & (tk & Htk & Htd) & Hcore).
    pose proof (lookup_lt_Some _ _ _ Hcl') as Hlt.
    destruct (ir_tasks _ _ _ _ _ Hi k Hlt) as (tk' & a0 & H1 & H2 & H3 & _).
    simplify_eq. eexists. split; [done|].
    unfold task_result; simpl. rewrite Hfut, Htk, Htd.
    destruct (t_coro tk) as [v|e] eqn:Hco.
    + unfold set_frame in *. dinv Hcore. simpl in *. split.
      * unfold got, popped, copy_pos; simpl.
        rewrite length_app; simpl. rewrite Nat.add_1_r.
        split; simpl; try done.
        -- intros w' fr' Hw'.
           eapply frame_ok_transport; [by apply Hfr|..]; done.
        -- rewrite length_app; simpl. rewrite Nat.add_1_r.
           rewrite (take_S_r _ _ (Returns v)) by done.
           simpl in Hacc. by rewrite Hacc, fmap_app.
        -- intros _. rewrite length_app; simpl. rewrite Nat.add_1_r.
           unfold nclaimed in *; simpl in *. lia.
      * unfold main_ok; simpl. split; [done|]. split.
        -- intros Hnil. by apply app_nil in Hnil as [_ ?].
        -- intros Hnil. apply (f_equal length) in Hnil.
           rewrite length_insert in Hnil. by destruct (frames st).
    + split.
      * unfold got, popped, copy_pos; simpl.
        by apply inv_core_set_main.
      * unfold main_ok; simpl. done.
Qed.

Lemma get_one_pop_inv ws k st :
  inv_core ws k k (S k) st →
  k = length (acc st) →
  k < nclaimed st →
  gen st = GenSuspended →
  ∃ st', get_one_pop k st = Some st' ∧ inv_run ws st'.
Proof.
  intros Hi Hk Hlt Hgen.
  destruct (ir_store _ _ _ _ _ Hi k ltac:(lia)) as (w & Hc & Hs).
  unfold get_one_pop. rewrite Hs.
  apply (get_one_get_inv ws); try done.
  dinv Hi. split; simpl; try done.
  - intros w' fr' Hw'.
    eapply frame_ok_transport; [by apply Hfr|..]; done.
  - intros i Hr. unfold nclaimed in *; simpl in *.
    destruct (Hsto i ltac:(lia)) as (w' & ? & ?).
    exists w'. split; [done|]. rewrite lookup_delete_ne by lia. done.
Qed.

Lemma start_workers_wait_inv ws st :
  inv_core ws 0 0 1 st →
  acc st = [] → gen st = GenSuspended → frames st ≠ [] →
  ∃ st', start_workers_wait 0 st = Some st' ∧ inv_run ws st'.
Proof.
  intros Hi Hacc' Hgen Hne. unfold start_workers_wait.
  destruct (workers_up st) eqn:Hup'.
  - apply (get_one_pop_inv ws); try done.
    + by rewrite Hacc'.
    + pose proof (ir_up _ _ _ _ _ Hi Hup').
      pose proof (ir_copy_le _ _ _ _ _ Hi). lia.
  - eexists. split; [done|]. split.
    + unfold got, popped, copy_pos; simpl. rewrite Hacc'.
      by apply inv_core_set_main.
    + unfold main_ok; simpl. done.
Qed.

Lemma start_workers_inv ws j st :
  inv_core ws 0 0 1 st →
  acc st = [] → gen st = GenSuspended → j = length (frames st) →
  frames st ≠ [] ∨ stream_finished st = false →
  ∃ st', start_workers 0 j st = Some st' ∧ inv_run ws st'.
Proof.
  intros Hi Hacc' Hgen Hj Hpre. unfold start_workers.
  pose proof (ir_copy_le _ _ _ _ _ Hi) as HN.
  destruct (ir_workers _ _ _ _ _ Hi) as (_ & _ & Hw1).
  specialize (Hw1 ltac:(lia)).
  assert (frames st = [] → j = 0) as Hj0.
  { intros Hnil. by rewrite Hj, Hnil. }
  destruct (Z.ltb_spec (Z.of_nat j) (workers st)) as [Hlt|Hge].
  - destruct (stream_finished st) eqn:Hsf.
    + apply start_workers_wait_inv; try done. by destruct Hpre.
    + eexists. split; [done|]. split.
      * unfold got, popped, copy_pos; simpl. rewrite Hacc'. simpl.
        dinv Hi. unfold nclaimed in *.
        split; simpl; rewrite ?length_app; simpl; try done.
        -- intros i Hlti. destruct (Hcl i Hlti) as (w & ? & ?).
           exists w. split; [done|lia].
        -- intros w fr Hw. apply lookup_app_Some in Hw as [Hw|[Hge Hw]].
           ++ eapply frame_ok_transport; [by apply Hfr|..]; done.
           ++ destruct (w - length (frames st)) eqn:Hd; [|done].
              simpl in Hw. simplify_eq.
              assert (w = length (frames st)) as -> by lia.
              split; simpl; try done.
              ** unfold pend, frame_items, nclaimed; simpl.
                 symmetry. apply filter_none. intros i Hin Hc.
                 apply elem_of_seq in Hin.
                 destruct (Hcl i ltac:(lia)) as (w' & ? & ?).
                 simplify_eq. lia.
              ** intros i [Hin|?]; [|done]. by apply elem_of_nil in Hin.
              ** intros i Hin. by apply elem_of_nil in Hin.
              ** eauto.
        -- intros i. destruct (decide (i = length (frames st))) as [->|Hne].
           ++ rewrite Hj, lookup_insert_eq. by rewrite decide_True by lia.
           ++ rewrite Hj, lookup_insert_ne, Hwt by done.
              repeat case_decide; try done; lia.
        -- lia.
      * unfold main_ok; simpl. rewrite length_app; simpl.
        repeat split; try done; lia.
  - apply start_workers_wait_inv; try done.
    intros Hnil. specialize (Hj0 Hnil). lia.
Qed.

Lemma get_one_inv ws k st :
  inv_core ws k k (S k) st →
  k = length (acc st) → gen st = GenSuspended →
  (acc st = [] ↔ frames st = []) →
  ∃ st', get_one k st = Some st' ∧ inv_run ws st'.
Proof.
  intros Hi Hk Hgen Hiff. unfold get_one.
  pose proof (ir_copy_le _ _ _ _ _ Hi) as HN.
  assert (workers_tasks st = ∅ ↔ frames st = []) as Hwt'.
  { split.
    - intros He. pose proof (ir_wt _ _ _ _ _ Hi 0) as H0.
      rewrite He, lookup_empty in H0.
      destruct (decide (0 < length (frames st))) as [?|Hn]; [done|].
      destruct (frames st); [done|simpl in *; lia].
    - intros Hnil. apply map_eq. intros i.
      rewrite (ir_wt _ _ _ _ _ Hi i), Hnil, lookup_empty.
      destruct (decide (i < length ([] : list worker_frame)))
        as [Hlt|?]; [simpl in Hlt; lia|done]. }
  destruct (decide (workers_tasks st = ∅)) as [He|Hne].
  - apply Hwt' in He. pose proof He as Hacc'. apply Hiff in Hacc'.
    rewrite Hacc' in Hk. simpl in Hk. subst k.
    apply (start_workers_inv ws); try done; [by rewrite He|].
    right. destruct (stream_finished st) eqn:Hsf; [|done].
    destruct (ir_fin _ _ _ _ _ Hi Hsf) as [_ Hc].
    destruct (ir_claimed _ _ _ _ _ Hi 0 ltac:(lia)) as (w & _ & Hw).
    rewrite He in Hw. simpl in Hw. lia.
  - assert (acc st ≠ []) as Hacc'.
    { intros Hnil. apply Hne, Hwt', Hiff, Hnil. }
    assert (0 < length (acc st)) as Hpos.
    { destruct (acc st); [done|simpl; lia]. }
    pose proof (ir_next _ _ _ _ _ Hi Hpos).
    apply (get_one_pop_inv ws); try done. lia.
Qed.

(** ** Every transition keeps the invariant *)

Lemma resolve_loop_inv ws k st :
  inv_core ws k k k st →
  k = length (acc st) →
  (acc st = [] ↔ frames st = []) →
  ∃ st', collect_resume (resolve_loop st) = Some st' ∧ inv_run ws st'.
Proof.
  intros Hi Hk Hiff. unfold resolve_loop.
  rewrite (ir_tee _ _ _ _ _ Hi).
  rewrite tee_next2_at by (by destruct Hi).
  destruct (awaitables st !! k) as [aw|] eqn:Haw; simpl.
  - apply (get_one_inv ws); try done.
    pose proof (lookup_lt_Some _ _ _ Haw).
    dinv Hi. split; simpl; try done.
    intros w fr Hw. eapply frame_ok_transport; [by apply Hfr|..]; done.
  - pose proof (lookup_ge_None_1 _ _ Haw).
    pose proof (ir_copy_le _ _ _ _ _ Hi).
    eexists. split; [done|]. split.
    + unfold got, popped, copy_pos; simpl. rewrite <- Hk.
      apply inv_core_set_main.
      dinv Hi. split; simpl; try done.
      intros w fr Hw. eapply frame_ok_transport; [by apply Hfr|..]; done.
    + unfold main_ok; simpl. split; [done|]. split; [done|lia].
Qed.

Lemma prelude_inv aws len ws g :
  (1 ≤ ws)%Z → (0 ≤ g)%Z →
  ∃ st', collect_step (collect (T:=T) aws len ws g) = Some st' ∧
         inv_run ws st'.
Proof.
  intros Hws Hg. unfold collect_step, collect, resolve, resolve_next; simpl.
  destruct (Z.ltb_spec ws 1) as [?|_]; [lia|].
  destruct (Z.ltb_spec g 0) as [?|_]; [lia|].
  apply (resolve_loop_inv ws 0); [|by destruct len|by destruct len].
  split; destruct len; unfold nclaimed, tee_new, tee_at, slice; simpl;
    try done; try lia; try (intros; lia);
    try (repeat split; intros; lia).

Qed.

(** [collect] can run whenever it is not suspended, and its runs keep the
    invariant. *)
Lemma collect_step_run ws st :
  inv ws st →
  match main st with
  | MLoop | MSpawn _ _ => True
  | MWaitUp _ => workers_up st = true
  | MGet _ w =>
      ∃ fr dq, frames st !! w = Some fr ∧ w_done fr = Some dq ∧
               q_items dq ≠ []
  | _ => False
  end →
  ∃ st', collect_step st = Some st' ∧ inv_run ws st'.
Proof.
  intros [(Hst & Hws & Hg)|[Hi Hm]] Hen.
  { rewrite Hst. by apply prelude_inv. }
  unfold collect_step. unfold main_ok in Hm.
  unfold got, popped, copy_pos in Hi.
  destruct (main st) as [|k j|k|k w|r|e] eqn:Hmain; try done.
  - destruct Hm as [Hgen Hiff]. unfold resolve_next. rewrite Hgen.
    by apply (resolve_loop_inv ws (length (acc st))).
  - destruct Hm as (Hgen & -> & Hacc & -> & Hj). rewrite Hacc in Hi.
    apply (start_workers_inv ws); try done.
    left. intros Hnil. rewrite Hnil in Hj. simpl in Hj. lia.
  - destruct Hm as (Hgen & -> & Hacc & Hne). rewrite Hacc in Hi.
    rewrite Hen. apply (get_one_pop_inv ws); try done.
    + by rewrite Hacc.
    + pose proof (ir_up _ _ _ _ _ Hi Hen).
      pose proof (ir_copy_le _ _ _ _ _ Hi). simpl in *. lia.
  - destruct Hm as (Hgen & -> & Hne & Hcl).
    destruct Hen as (fr & dq & Hw & Hdq & Hit). rewrite Hw, Hdq.
    destruct (q_items dq) eqn:Hq; [done|].
    by apply (get_one_get_inv ws).
Qed.

Lemma collect_step_inv ws st st' :
  inv ws st → collect_step st = Some st' → inv_run ws st'.
Proof.
  intros Hi Hs. destruct (collect_step_run ws st Hi) as (st'' & Hs' & Hi').
  - unfold collect_step in Hs.
    destruct (main st) as [|k j|k|k w|r|e]; try done.
    + by destruct (workers_up st).
    + destruct (frames st !! w) as [fr|] eqn:Hw; [|done].
      destruct (w_done fr) as [dq|] eqn:Hdq; [|done].
      exists fr, dq. split; [done|]. split; [done|].
      intros Hnil. by rewrite Hnil in Hs.
  - congruence.
Qed.

(** In a state where [collect] is suspended the invariant is [inv_run]. *)
Lemma inv_not_busy ws st : inv ws st → main_busy st = false → inv_run ws st.
Proof.
  intros [(Hst & _)|Hi] Hb; [|done]. by rewrite Hst in Hb.
Qed.

Lemma step_inv ws a st st' : inv ws st → step a st = Some st' → inv ws st'.
Proof.
  intros Hi Hs. right. destruct a as [|w|t|t]; simpl in Hs.
  - by eapply collect_step_inv.
  - destruct (main_busy st) eqn:Hb; [done|].
    apply inv_not_busy in Hi; [|done].
    eapply inv_run_same; [by eapply worker_same|done|].
    eapply worker_inv; [apply Hi|done].
  - destruct (main_busy st) eqn:Hb; [done|].
    apply inv_not_busy in Hi; [|done].
    eapply inv_run_same; [by eapply task_finish_same|done|].
    eapply inv_core_task_finish; [apply Hi|done].
  - destruct (main_busy st) eqn:Hb; [done|].
    apply inv_not_busy in Hi; [|done].
    eapply inv_run_same; [by eapply task_callback_same|done|].
    eapply inv_core_task_callback; [apply Hi|done].
Qed.

Lemma run_inv ws sched st st' :
  inv ws st → run sched st = Some st' → inv ws st'.
Proof.
  revert st. induction sched as [|a sched IH]; intros st Hi Hr; simpl in Hr.
  - by simplify_eq.
  - destruct (step a st) as [st1|] eqn:Hs; [|done].
    eapply IH; [|done]. by eapply step_inv.
Qed.

Lemma collect_inv aws len ws g :
  (1 ≤ ws)%Z → (0 ≤ g)%Z → inv ws (collect (T:=T) aws len ws g).
Proof. intros. by left. Qed.

(** ** Something can always run until [collect] ends *)






(** ** The measure decreases: workers and tasks *)








(** ** The measure decreases: [collect] *)


















(** ** Runs end, with the sequential result *)









(** ** The arguments are constant *)

Lemma get_one_get_args k w st st' :
  get_one_get k w st = Some st' → same_args st st'.
Proof.
  unfold get_one_get, set_frame. intros Hs.
  repeat case_match; simplify_eq; done.
Qed.

Lemma get_one_pop_args k st st' :
  get_one_pop k st = Some st' → same_args st st'.
Proof.
  unfold get_one_pop. intros Hs. destruct (store st !! k); simplify_eq.
  - by apply get_one_get_args in Hs.
  - done.
Qed.

Lemma start_workers_args k j st st' :
  start_workers k j st = Some st' → same_args st st'.
Proof.
  unfold start_workers, start_workers_wait. intros Hs.
  repeat case_match; simplify_eq; try done;
    by apply get_one_pop_args in Hs.
Qed.

Lemma collect_step_args st st' :
  collect_step st = Some st' → same_args st st'.
Proof.
  unfold collect_step. intros Hs.
  destruct (main st) eqn:Hmain; try done.
  - unfold resolve_next, resolve_loop in Hs.
    assert (∀ st1 index, same_args st st1 → get_one index st1 = Some st' →
                         same_args st st') as Hget.
    { intros st1 index (H1 & H2 & H3) Hg. unfold get_one in Hg.
      assert (same_args st1 st') as (? & ? & ?).
      { destruct (decide _).
        - by apply start_workers_args in Hg.
        - by apply get_one_pop_args in Hg. }
      repeat split; congruence. }
    repeat case_match; simplify_eq; simpl in *; simplify_eq; try done;
      (eapply Hget; [|done]); done.
  - by apply start_workers_args in Hs.
  - destruct (workers_up st); [|done]. by apply get_one_pop_args in Hs.
  - repeat case_match; simplify_eq. by apply get_one_get_args in Hs.
Qed.

Lemma step_args a st st' : step a st = Some st' → same_args st st'.
Proof.
  destruct a as [|w|t|t]; simpl; intros Hs.
  - by apply collect_step_args.
  - destruct (main_busy st); [done|].
    unfold worker, worker_put, worker_loop, schedule, set_frame in Hs.
    repeat case_match; simplify_eq; done.
  - destruct (main_busy st); [done|]. unfold task_finish in Hs.
    repeat case_match; simplify_eq; done.
  - destruct (main_busy st); [done|].
    unfold task_callback, _done_callback in Hs.
    repeat case_match; simplify_eq; done.
Qed.

Lemma run_args sched st st' : run sched st = Some st' → same_args st st'.
Proof.
  revert st. induction sched as [|a sched IH]; intros st Hr; simpl in Hr.
  - by simplify_eq.
  - destruct (step a st) as [st1|] eqn:Hs; [|done].
    apply step_args in Hs as (? & ? & ?).
    apply IH in Hr as (? & ? & ?). repeat split; congruence.
Qed.

End CoordinatorProofs.

(** * The specification, claim by claim *)

Section Claims.

Context {T : Type}.
Implicit Types st : @state T.

Lemma run_inv_collect (aws : list (@outcome T)) len ws g sched st :
  (1 ≤ ws)%Z → (0 ≤ g)%Z →
  run sched (collect aws len ws g) = Some st →
  inv ws st ∧ awaitables st = aws ∧ has_len st = len ∧
  worker_greediness st = g.
Proof.
  intros Hws Hg Hr. split.
  - eapply run_inv; [|done]. by apply collect_inv.
  - by apply run_args in Hr as (? & ? & ?).
Qed.







(** C3, as the code has it.  Each worker owns one queue, built with
    [maxsize = worker_greediness], and only results of indices that worker
    claimed enter it.  With [worker_greediness >= 1] the queue never holds
    more than [worker_greediness] results, so a worker holds at most
    [worker_greediness + 1] completed results that [collect] has not taken,
    counting the one of a [put] that waits for room.  With
    [worker_greediness = 0] the queue is never full and no worker ever
    waits in [put]. *)
Theorem worker_queue_bound
    (aws : list outcome) (len : bool) (ws g : Z) sched st w fr :
  (1 ≤ ws)%Z → (0 ≤ g)%Z →
  run sched (collect aws len ws g) = Some st →
  frames st !! w = Some fr →
  (∀ q, w_done fr = Some q → maxsize q = g) ∧
  (∀ i, i ∈ frame_items fr → claimed st !! i = Some (w, i)) ∧
  ((0 < g)%Z →
   (∀ q, w_done fr = Some q → (Z.of_nat (qsize q) ≤ g)%Z) ∧
   (Z.of_nat (unconsumed fr) ≤ g + 1)%Z) ∧
  (g = 0%Z →
   (∀ q, w_done fr = Some q → full q = false) ∧
   (∀ fut, w_pc fr ≠ WPut fut)).
Proof.
  intros Hws Hg Hr Hw.
  destruct (run_inv_collect _ _ _ _ _ _ Hws Hg Hr) as (Hi & _ & _ & Hgr).
  destruct Hi as [(Hst & _)|[Hc _]]; [by rewrite Hst in Hw|].
  pose proof (ir_frames _ _ _ _ _ Hc _ _ Hw) as Hok.
  assert (∀ q, w_done fr = Some q → maxsize q = g) as Hmax.
  { intros q Hq. pose proof (fo_queue _ _ _ _ Hok) as Hfq.
    destruct (w_pc fr); [congruence|..];
      destruct Hfq as (q' & ? & ?); congruence. }
  assert (∀ q, w_done fr = Some q → (0 < g)%Z →
               (Z.of_nat (qsize q) ≤ g)%Z) as Hcap.
  { intros q Hq Hpos. rewrite <- (Hmax q Hq).
    apply (fo_cap _ _ _ _ Hok _ Hq). by rewrite (Hmax q Hq). }
  split; [done|]. split; [|split].
  - intros i Hin. apply (pend_range _ _ _ _ i Hok).
    unfold pend. apply elem_of_app. by left.
  - intros Hpos. split; [by eauto|].
    unfold unconsumed, frame_items.
    destruct (w_done fr) as [q|] eqn:Hq.
    + specialize (Hcap q eq_refl Hpos). unfold qsize in Hcap.
      rewrite length_fmap. destruct (w_pc fr); lia.
    + pose proof (fo_queue _ _ _ _ Hok) as Hfq.
      destruct (w_pc fr); simpl; try lia;
        destruct Hfq as (q' & ? & ?); congruence.
  - intros ->. split.
    + intros q Hq. unfold full. by rewrite (Hmax q Hq).
    + intros fut Hpc. pose proof (fo_block _ _ _ _ Hok fut Hpc). lia.
Qed.

(** C4, as the code has it.  With [workers < 1] or [worker_greediness < 0]
    the calls [resolve(...)] and [collect(...)] return a generator and a
    coroutine without raising.  The [ValueError] is raised by the first
    [next] on the generator, and by the first run of the coroutine; no
    worker was spawned and no task was created, and nothing runs
    afterwards. *)
Theorem invalid_arguments_raise_on_first_next
    (aws : list outcome) (len : bool) (ws g : Z) :
  (ws < 1)%Z ∨ (g < 0)%Z →
  resolve_call aws len ws g = inr (resolve aws len ws g) ∧
  collect_call aws len ws g = inr (collect aws len ws g) ∧
  (∃ msg st1,
     resolve_next (resolve aws len ws g) = (GRaise (ValueError msg), st1) ∧
     gen st1 = GenClosed ∧ frames st1 = [] ∧ tasks st1 = []) ∧
  (∃ msg st1,
     collect_step (collect aws len ws g) = Some st1 ∧
     main st1 = MRaised (ValueError msg) ∧
     frames st1 = [] ∧ tasks st1 = [] ∧ quiescent st1).
Proof.
  intros Hbad. split; [done|]. split; [done|].
  assert (∀ m, quiescent
                 (set_main (MRaised (ValueError m))
                    (set_gen GenClosed (resolve aws len ws g)))) as Hq.
  { by intros m [|w|t|t]. }
  unfold collect_step, collect, resolve_next; simpl.
  destruct (Z.ltb_spec ws 1) as [?|?].
  - split; eexists _, _; repeat split; try done; apply Hq.
  - destruct (Z.ltb_spec g 0) as [?|?]; [|lia].
    split; eexists _, _; repeat split; try done; apply Hq.
Qed.





(** C8. For an empty input the first [next] on the generator of [resolve]
    ends the iteration, and [collect] returns the empty tuple in its first
    run, without a suspension; no worker is spawned, no task is created,
    and in every run there is never a worker. *)
Theorem empty_input_yields_nothing (len : bool) (ws g : Z) :
  (1 ≤ ws)%Z → (0 ≤ g)%Z →
  (∃ st1, resolve_next (resolve (T:=T) [] len ws g) = (GStop, st1) ∧
          frames st1 = [] ∧ tasks st1 = []) ∧
  (∃ st1, collect_step (collect (T:=T) [] len ws g) = Some st1 ∧
          main st1 = MReturned [] ∧ frames st1 = [] ∧
          workers_tasks st1 = ∅ ∧ tasks st1 = [] ∧ quiescent st1) ∧
  ∀ sched st,
    run sched (collect (T:=T) [] len ws g) = Some st →
    frames st = [] ∧ workers_tasks st = ∅ ∧ length sched ≤ 1.
Proof.
  intros Hws Hg.
  assert (∃ st1, collect_step (collect (T:=T) [] len ws g) = Some st1 ∧
                 main st1 = MReturned [] ∧ frames st1 = [] ∧
                 workers_tasks st1 = ∅ ∧ tasks st1 = [] ∧ quiescent st1)
    as (st1 & Hs1 & Hm1 & Hf1 & Hw1 & Ht1 & Hq1).
  { unfold collect_step, collect, resolve_next, resolve; simpl.
    destruct (Z.ltb_spec ws 1) as [?|_]; [lia|].
    destruct (Z.ltb_spec g 0) as [?|_]; [lia|].
    destruct len; simpl; eexists; repeat split; try done;
      by intros [|w|t|t]. }
  split; [|split; [by exists st1|]].
  - unfold resolve_next, resolve; simpl.
    destruct (Z.ltb_spec ws 1) as [?|_]; [lia|].
    destruct (Z.ltb_spec g 0) as [?|_]; [lia|].
    destruct len; simpl; by eexists.
  - intros [|a [|b sched]] st Hr; simpl in Hr.
    + simplify_eq. simpl. repeat split; try done; lia.
    + destruct a as [|w|t|t]; simpl in Hr; try done.
      rewrite Hs1 in Hr. simplify_eq. simpl. repeat split; try done.
    + destruct a as [|w|t|t]; simpl in Hr; try done.
      rewrite Hs1 in Hr. by rewrite (Hq1 b) in Hr.
Qed.

(** C9. In every state of every run the indices handed out by [stream] are
    [0, 1, ..., c-1] in this order, with [c] at most the number of tasks: no
    index is skipped, none is handed out twice, and each one went to one
    worker; one task was created per index, for the awaitable at that
    index; the iterator under [tee] gave each item once (it stands after
    the furthest of [stream] and [stream_copy], with the rest of the input
    still to give); and when [collect] has returned, every index was
    claimed. *)
Theorem stream_consumed_exclusively
    (aws : list outcome) (len : bool) (ws g : Z) sched st :
  (1 ≤ ws)%Z → (0 ≤ g)%Z →
  run sched (collect aws len ws g) = Some st →
  (claimed st).*2 = seq 0 (nclaimed st) ∧
  nclaimed st ≤ length aws ∧
  (∀ i w w', (w, i) ∈ claimed st → (w', i) ∈ claimed st → w = w') ∧
  (∀ i w, (w, i) ∈ claimed st → is_Some (frames st !! w)) ∧
  length (tasks st) = nclaimed st ∧
  (∀ i tk, tasks st !! i = Some tk → aws !! i = Some (t_coro tk)) ∧
  (gen st ≠ GenCreated →
   tee_it (stream st)
   = Enumerate (nclaimed st `max` copy_pos st)
       (drop (nclaimed st `max` copy_pos st) aws)) ∧
  (∀ r, main st = MReturned r → nclaimed st = length aws).
Proof.
  intros Hws Hg Hr.
  destruct (run_inv_collect _ _ _ _ _ _ Hws Hg Hr) as (Hi & Ha & _).
  destruct Hi as [(Hst & _)|[Hc Hm]].
  { rewrite Hst. unfold nclaimed. simpl.
    repeat split; try done; try lia;
      intros; by (try apply elem_of_nil in H). }
  pose proof (ir_claimed _ _ _ _ _ Hc) as Hcl.
  assert (∀ i w, (w, i) ∈ claimed st →
                 claimed st !! i = Some (w, i) ∧ w < length (frames st))
    as Hin.
  { intros i w Hel. apply list_elem_of_lookup in Hel as [j Hj].
    destruct (Hcl j) as (w' & Hj' & Hlt); [by eapply lookup_lt_Some|].
    rewrite Hj in Hj'. by simplify_eq. }
  rewrite <- Ha.
  split; [|split; [|split; [|split; [|split; [|split; [|split]]]]]].
  - apply list_eq. intros i. rewrite list_lookup_fmap.
    destruct (decide (i < nclaimed st)) as [Hlt|Hge].
    + destruct (Hcl i Hlt) as (w & -> & _). simpl.
      by rewrite lookup_seq_lt.
    + rewrite lookup_seq_ge by lia.
      by rewrite (lookup_ge_None_2 (claimed st)) by (unfold nclaimed in Hge; lia).
  - apply (ir_c_le _ _ _ _ _ Hc).
  - intros i w w' H1 H2. apply Hin in H1 as [H1 _]. apply Hin in H2 as [H2 _].
    congruence.
  - intros i w Hel. apply Hin in Hel as [_ Hlt].
    by apply lookup_lt_is_Some.
  - apply (ir_heap _ _ _ _ _ Hc).
  - intros i tk Htk.
    destruct (ir_tasks _ _ _ _ _ Hc i) as (tk' & a & H1 & H2 & H3 & _).
    { apply lookup_lt_Some in Htk.
      by rewrite (proj1 (ir_heap _ _ _ _ _ Hc)) in Htk. }
    congruence.
  - intros _. by rewrite (ir_tee _ _ _ _ _ Hc).
  - intros r Hmr. unfold main_ok in Hm. rewrite Hmr in Hm.
    destruct Hm as (_ & _ & Hlen).
    pose proof (ir_got _ _ _ _ _ Hc) as Hgot. unfold got in Hgot.
    rewrite Hmr in Hgot. pose proof (ir_c_le _ _ _ _ _ Hc). lia.
Qed.

End Claims.




Lemma worker_queue_bound_witness :
  ∃ st fr,
    run slow_first_schedule
      (collect [Returns 10%Z; Returns 20%Z; Returns 30%Z] true 2 1) = Some st ∧
    frames st !! 1 = Some fr ∧
    (Z.of_nat (unconsumed fr) ≤ 1 + 1)%Z.
Proof.
  eexists _, _. split; [vm_compute; reflexivity|]. split; [reflexivity|].
  refine (proj2 (proj1 (proj2 (proj2
    (worker_queue_bound [Returns 10%Z; Returns 20%Z; Returns 30%Z] true 2 1
       slow_first_schedule _ 1 _ _ _ _ _))) _));
    first [lia | vm_compute; reflexivity].
Defined.

(** C3 as the spec states it fails: with [worker_greediness = 0] worker 1
    holds two completed results that [collect] has not taken. *)
Lemma greediness_zero_is_unbounded :
  ¬ (∀ sched st w fr,
       run sched
         (collect [Returns 10%Z; Returns 20%Z; Returns 30%Z] true 2 0)
         = Some st →
       frames st !! w = Some fr →
       (Z.of_nat (unconsumed fr) ≤ worker_greediness st + 1)%Z).
Proof.
  intros H.
  destruct (run slow_first_schedule
              (collect [Returns 10%Z; Returns 20%Z; Returns 30%Z] true 2 0))
    as [st|] eqn:Hr; [|by vm_compute in Hr].
  destruct (frames st !! 1) as [fr|] eqn:Hw.
  - specialize (H _ _ _ _ Hr Hw). vm_compute in Hr. injection Hr as <-.
    vm_compute in Hw. injection Hw as <-. vm_compute in H. by apply H.
  - vm_compute in Hr. injection Hr as <-. by vm_compute in Hw.
Qed.

Lemma invalid_arguments_raise_on_first_next_witness :
  ((0 < 1)%Z ∨ (0 < 0)%Z) ∧
  ∃ msg st1,
    collect_step (collect [Returns 1%Z] true 0 0) = Some st1 ∧
    main st1 = MRaised (ValueError msg) ∧
    frames st1 = [] ∧ tasks st1 = [] ∧ quiescent st1.
Proof.
  split; [left; lia|].
  apply (invalid_arguments_raise_on_first_next [Returns 1%Z] true 0 0).
  left; lia.
Defined.

(** C4 as the spec states it fails: the call [resolve([...], workers=0)]
    raises nothing. *)
Lemma resolve_call_does_not_raise :
  ¬ (∃ e, resolve_call [Returns 1%Z] true 0 0 = inl e).
Proof. intros [e He]. discriminate He. Qed.


Lemma empty_input_yields_nothing_witness :
  (1 ≤ 1024)%Z ∧ (0 ≤ 0)%Z ∧
  ∃ st1, collect_step (collect (T:=Z) [] true 1024 0) = Some st1 ∧
         main st1 = MReturned [] ∧ frames st1 = [] ∧
         workers_tasks st1 = ∅ ∧ tasks st1 = [] ∧ quiescent st1.
Proof.
  split; [lia|]. split; [lia|].
  apply (empty_input_yields_nothing (T:=Z) true 1024 0); lia.
Defined.

Lemma stream_consumed_exclusively_witness :
  (1 ≤ 2)%Z ∧ (0 ≤ 0)%Z ∧
  ∃ st,
    run slow_first_schedule
      (collect [Returns 10%Z; Returns 20%Z; Returns 30%Z] true 2 0) = Some st ∧
    (claimed st).*2 = seq 0 (nclaimed st).
Proof.
  split; [lia|]. split; [lia|]. eexists. split; [vm_compute; reflexivity|].
  apply (stream_consumed_exclusively
           [Returns 10%Z; Returns 20%Z; Returns 30%Z] true 2 0
           slow_first_schedule); [lia|lia|vm_compute; reflexivity].
Defined.

(** * The executor pool *)

Lemma executor_pool_wf_init : ExecutorPool.wf ExecutorPool.init.
Proof. done. Qed.

Lemma executor_pool_wf_initialize accepts mw s :
  ExecutorPool.wf s →
  ExecutorPool.wf (ExecutorPool.initialize accepts mw s).1.
Proof.
  destruct s as [[r|] h]; unfold ExecutorPool.wf, ExecutorPool.initialize,
    ExecutorPool.executor_shutdown; simpl; intros Hwf;
    destruct (accepts mw); simpl; try done;
    repeat case_match; rewrite ?length_app, ?length_insert; simpl; lia.
Qed.

Lemma executor_pool_wf_shutdown wait s :
  ExecutorPool.wf s → ExecutorPool.wf (ExecutorPool.shutdown wait s).
Proof. by destruct s as [[r|] h]. Qed.

(** C6. Before any [initialize] the [pool] property raises the
    not-initialized error, and it does so whenever no pool instance exists;
    [initialized] is true exactly when a pool instance exists; [initialize]
    on a state that has a pool instance shuts that executor down with
    [wait=False] and, the class accepting [max_workers], installs a new
    executor built with it. *)
Theorem executor_pool_lifecycle :
  ExecutorPool.pool ExecutorPool.init
    = inl (RuntimeError "Must Call initialize first") ∧
  (∀ s, ExecutorPool.initialized s = true ↔ is_Some (ExecutorPool._pool s)) ∧
  (∀ s, ExecutorPool.initialized s = false →
        ExecutorPool.pool s
          = inl (RuntimeError "Must Call initialize first")) ∧
  ∀ accepts mw s r,
    ExecutorPool.wf s →
    ExecutorPool._pool s = Some r →
    accepts mw = true →
    ∃ e s',
      ExecutorPool.heap s !! r = Some e ∧
      ExecutorPool.initialize accepts mw s = (s', None) ∧
      ExecutorPool.heap s' !! r
        = Some (ExecutorPool.Executor (ExecutorPool.max_workers e)
                  (Some false)) ∧
      ExecutorPool._pool s' = Some (length (ExecutorPool.heap s)) ∧
      ExecutorPool.heap s' !! length (ExecutorPool.heap s)
        = Some (ExecutorPool.Executor mw None) ∧
      ExecutorPool.initialized s' = true ∧
      ExecutorPool.pool s' = inr (length (ExecutorPool.heap s)).
Proof.
  split; [done|]. split; [|split].
  - intros [[r|] h]; unfold ExecutorPool.initialized; simpl.
    + split; [by eauto|done].
    + split; [done|]. by intros [? ?].
  - intros [[r|] h]; unfold ExecutorPool.initialized, ExecutorPool.pool;
      simpl; done.
  - intros accepts mw [p h] r Hwf Hp Ha. simpl in *. subst p.
    unfold ExecutorPool.wf in Hwf. simpl in Hwf.
    destruct (lookup_lt_is_Some_2 h r Hwf) as [e Hr].
    unfold ExecutorPool.initialize, ExecutorPool.executor_shutdown; simpl.
    rewrite Ha, Hr.
    eexists _, _. split; [done|]. split; [reflexivity|]. simpl.
    rewrite length_insert.
    split; [|split; [done|split; [|done]]].
    + rewrite lookup_app_l by (by rewrite length_insert).
      by apply list_lookup_insert_eq.
    + by rewrite lookup_app_r, length_insert, Nat.sub_diag
        by (rewrite length_insert; lia).
Qed.

Lemma executor_pool_lifecycle_witness :
  ExecutorPool.wf
    (ExecutorPool.initialize ExecutorPool.positive_size (Some 4%Z)
       ExecutorPool.init).1 ∧
  ExecutorPool._pool
    (ExecutorPool.initialize ExecutorPool.positive_size (Some 4%Z)
       ExecutorPool.init).1 = Some 0 ∧
  ExecutorPool.positive_size (Some 8%Z) = true ∧
  ∃ e s',
    ExecutorPool.heap
      (ExecutorPool.initialize ExecutorPool.positive_size (Some 4%Z)
         ExecutorPool.init).1 !! 0 = Some e ∧
    ExecutorPool.initialize ExecutorPool.positive_size (Some 8%Z)
      (ExecutorPool.initialize ExecutorPool.positive_size (Some 4%Z)
         ExecutorPool.init).1 = (s', None) ∧
    ExecutorPool.heap s' !! 0
      = Some (ExecutorPool.Executor (ExecutorPool.max_workers e)
                (Some false)) ∧
    ExecutorPool._pool s' = Some 1 ∧
    ExecutorPool.heap s' !! 1 = Some (ExecutorPool.Executor (Some 8%Z) None) ∧
    ExecutorPool.initialized s' = true ∧
    ExecutorPool.pool s' = inr 1.
Proof.
  split; [vm_compute; lia|]. split; [reflexivity|]. split; [reflexivity|].
  apply (proj2 (proj2 (proj2 executor_pool_lifecycle))
           ExecutorPool.positive_size (Some 8%Z)
           (ExecutorPool.initialize ExecutorPool.positive_size (Some 4%Z)
              ExecutorPool.init).1 0);
    [vm_compute; lia|reflexivity|reflexivity].
Defined.

(** C10. [shutdown] always returns: on a state with no pool instance it
    changes nothing; after it [initialized] is false; a second [shutdown]
    in a row changes nothing more. *)
Theorem shutdown_idempotent :
  (∀ wait h,
     ExecutorPool.shutdown wait (ExecutorPool.Pool None h)
     = ExecutorPool.Pool None h) ∧
  (∀ wait s,
     ExecutorPool.initialized (ExecutorPool.shutdown wait s) = false) ∧
  (∀ wait wait' s,
     ExecutorPool.shutdown wait' (ExecutorPool.shutdown wait s)
     = ExecutorPool.shutdown wait s).
Proof.
  split; [done|]. split.
  - by intros wait [[r|] h].
  - by intros wait wait' [[r|] h].
Qed.

(** * Runs of the event loop *)

(** The scenario of the specification, [collect([1, 2, 3], workers=2)],
    along the schedule of the event loop when every task finishes in its
    first run. *)
Example collect_three_tasks_two_workers :
  main <$> run [Main; Worker 0; Main; TaskDone 0; Worker 1; Main;
                Callback 0; TaskDone 1; Worker 0; Callback 1; Main; Main;
                TaskDone 2; Worker 1; Callback 2; Main; Main; Worker 0;
                Main; Main]
             (collect (Returns <$> [1; 2; 3]%Z) true 2 0)
  = Some (MReturned [1; 2; 3]%Z).
Proof. vm_compute. reflexivity. Qed.

(** The same input when the task of index 0 finishes last. *)
Example collect_slow_first_task :
  main <$> run (slow_first_schedule
                ++ [TaskDone 0; Callback 0; Worker 0; Main; Main; Main; Main])
             (collect (Returns <$> [1; 2; 3]%Z) true 2 0)
  = Some (MReturned [1; 2; 3]%Z).
Proof. vm_compute. reflexivity. Qed.

(** An input without a length is not capped: for a single task given by a
    generator a second worker is spawned, and finds the stream exhausted. *)
Example single_task_without_length :
  (λ st, (length (frames st), stream_finished st))
    <$> run [Main; Worker 0; Main; Worker 1; Main]
          (collect [Returns 1%Z] false 1024 0)
  = Some (2, true).
Proof. vm_compute. reflexivity. Qed.

(** * Tasks in flight *)

Section FlightProofs.

Context {T : Type}.
Implicit Types st : @state T.

Lemma elem_of_in_flight st i :
  i ∈ in_flight st ↔ ∃ tk, tasks st !! i = Some tk ∧ t_done tk = false.
Proof.
  unfold in_flight. rewrite list_elem_of_filter, elem_of_seq. split.
  - intros [Hd _]. destruct (tasks st !! i) as [tk|]; [|done].
    exists tk. split; [done|]. simpl in Hd. congruence.
  - intros (tk & Hl & Hd). rewrite Hl. simpl. split; [by rewrite Hd|].
    apply lookup_lt_Some in Hl. lia.
Qed.

Lemma elem_of_awaited st i :
  i ∈ awaited st ↔
  ∃ w fr wr, frames st !! w = Some fr ∧ w_pc fr = WAwait i wr.
Proof.
  unfold awaited. rewrite list_elem_of_bind. split.
  - intros (fr & Hin & Hfr). apply list_elem_of_lookup in Hfr as [w Hw].
    unfold awaits in Hin. destruct (w_pc fr) as [|j wr| |] eqn:Hpc;
      try by apply elem_of_nil in Hin.
    apply list_elem_of_singleton in Hin as ->. by exists w, fr, wr.
  - intros (w & fr & wr & Hw & Hpc). exists fr. split.
    + unfold awaits. rewrite Hpc. by apply list_elem_of_singleton.
    + by eapply list_elem_of_lookup_2.
Qed.

Lemma length_awaited st : length (awaited st) ≤ length (frames st).
Proof.
  unfold awaited. induction (frames st) as [|fr l IH]; [done|].
  rewrite bind_cons, length_app. simpl.
  assert (length (awaits fr) ≤ 1); [|lia].
  unfold awaits. destruct (w_pc fr); simpl; lia.
Qed.

Lemma in_flight_length st :
  flight_ok st → length (in_flight st) ≤ length (frames st).
Proof.
  intros Hok. etrans; [|apply length_awaited].
  apply submseteq_length, NoDup_submseteq; [|done].
  unfold in_flight. apply NoDup_filter, NoDup_seq.
Qed.

(** ** [collect] leaves the tasks and the workers where they are *)

Lemma keeps_workers_refl st : keeps_workers st st.
Proof. split; [done|]. eauto. Qed.

Lemma keeps_workers_trans st1 st2 st3 :
  keeps_workers st1 st2 → keeps_workers st2 st3 → keeps_workers st1 st3.
Proof.
  intros [Ht1 Hf1] [Ht2 Hf2]. split; [congruence|].
  intros w fr Hw. destruct (Hf1 _ _ Hw) as (fr2 & Hw2 & Hpc2).
  destruct (Hf2 _ _ Hw2) as (fr3 & Hw3 & Hpc3). exists fr3.
  split; [done|congruence].
Qed.

Lemma get_one_get_keeps k w st st' :
  get_one_get k w st = Some st' → keeps_workers st st'.
Proof.
  unfold get_one_get, set_frame. intros Hs.
  destruct (frames st !! w) as [fr|] eqn:Hw; [|done].
  destruct (w_done fr) as [dq|]; [|done].
  destruct (q_items dq) as [|fut rest]; simplify_eq.
  { split; [done|]. eauto. }
  assert (∀ w' fr', frames st !! w' = Some fr' →
            ∃ fr'', <[w := {| w_pc := w_pc fr;
                              w_done := Some (Queue (maxsize dq) rest) |}]>
                      (frames st) !! w' = Some fr'' ∧
                    w_pc fr'' = w_pc fr') as Hfr.
  { intros w' fr' Hw'. destruct (decide (w' = w)) as [->|Hne].
    - rewrite list_lookup_insert_eq by (by eapply lookup_lt_Some).
      eexists. split; [done|]. simpl. congruence.
    - rewrite list_lookup_insert_ne by done. eauto. }
  destruct (task_result _ _); split; simpl; done.
Qed.

Lemma get_one_pop_keeps k st st' :
  get_one_pop k st = Some st' → keeps_workers st st'.
Proof.
  unfold get_one_pop. intros Hs. destruct (store st !! k); simplify_eq.
  - apply get_one_get_keeps in Hs as [Ht Hf]. split; done.
  - split; [done|]. eauto.
Qed.

Lemma start_workers_keeps k j st st' :
  start_workers k j st = Some st' → keeps_workers st st'.
Proof.
  unfold start_workers, start_workers_wait. intros Hs.
  repeat case_match; simplify_eq;
    try (by apply get_one_pop_keeps in Hs);
    try (split; [done|]; by eauto).
  split; [done|]. simpl. intros w fr Hw. exists fr.
  split; [|done]. rewrite lookup_app_l; [done|]. by eapply lookup_lt_Some.
Qed.

Lemma get_one_keeps k st st' :
  get_one k st = Some st' → keeps_workers st st'.
Proof.
  unfold get_one. intros Hs. destruct (decide _).
  - by apply start_workers_keeps in Hs.
  - by apply get_one_pop_keeps in Hs.
Qed.

Lemma collect_step_keeps st st' :
  collect_step st = Some st' → keeps_workers st st'.
Proof.
  unfold collect_step. intros Hs.
  destruct (main st) eqn:Hmain; try done.
  - unfold resolve_next, resolve_loop in Hs.
    assert (∀ st1 index, keeps_workers st st1 →
              get_one index st1 = Some st' → keeps_workers st st') as Hget.
    { intros st1 index Hk Hg. eapply keeps_workers_trans; [done|].
      by eapply get_one_keeps. }
    repeat case_match; simplify_eq; simpl in *; simplify_eq;
      try (by split; [done|]; eauto);
      (eapply Hget; [|done]); (split; simpl; [done|eauto]).
  - by apply start_workers_keeps in Hs.
  - destruct (workers_up st); [|done]. by apply get_one_pop_keeps in Hs.
  - repeat case_match; simplify_eq. by apply get_one_get_keeps in Hs.
Qed.

Lemma keeps_workers_flight st st' :
  keeps_workers st st' → flight_ok st → flight_ok st'.
Proof.
  intros [Ht Hf] Hok i Hin. apply elem_of_in_flight in Hin.
  rewrite Ht in Hin. apply elem_of_in_flight, Hok, elem_of_awaited in Hin
    as (w & fr & wr & Hw & Hpc).
  destruct (Hf _ _ Hw) as (fr' & Hw' & Hpc').
  apply elem_of_awaited. exists w, fr', wr. split; [done|congruence].
Qed.

(** ** The workers and the tasks *)

(** A worker that leaves [await schedule(...)], blocks in [put] or ends:
    the task it waited for, if any, has finished. *)
Lemma set_frame_flight st w fr0 fr :
  frames st !! w = Some fr0 →
  (∀ i wr, w_pc fr0 = WAwait i wr → task_done st i) →
  flight_ok st → flight_ok (set_frame w fr st).
Proof.
  intros Hw Hdone Hok i Hin. apply elem_of_in_flight in Hin. simpl in Hin.
  pose proof Hin as (tk & Htk & Hund).
  apply elem_of_in_flight, Hok, elem_of_awaited in Hin
    as (w' & fr' & wr & Hw' & Hpc).
  apply elem_of_awaited. destruct (decide (w' = w)) as [->|Hne].
  - simplify_eq. destruct (Hdone _ _ Hpc) as (tk' & ? & ?). congruence.
  - exists w', fr', wr. split; [|done]. unfold set_frame. simpl.
    by rewrite list_lookup_insert_ne.
Qed.

Lemma worker_loop_flight st w fr0 dq k :
  stream st = tee_at (awaitables st) (nclaimed st) k →
  nclaimed st ≤ length (awaitables st) → k ≤ length (awaitables st) →
  length (tasks st) = nclaimed st →
  frames st !! w = Some fr0 →
  (∀ i wr, w_pc fr0 = WAwait i wr → task_done st i) →
  flight_ok st → flight_ok (worker_loop w dq st).
Proof.
  intros Htee Hc Hk Hlen Hw Hdone Hok.
  unfold worker_loop. rewrite Htee, tee_next1_at by done.
  destruct (awaitables st !! nclaimed st) as [aw|] eqn:Haw.
  - unfold schedule, set_frame; simpl. intros i Hin.
    apply elem_of_in_flight in Hin as (tk & Htk & Hund). simpl in Htk.
    apply elem_of_awaited. simpl.
    apply lookup_app_Some in Htk as [Htk|[Hge Htk]].
    + assert (i ∈ in_flight st) as Hin.
      { apply elem_of_in_flight. by exists tk. }
      apply Hok, elem_of_awaited in Hin as (w' & fr' & wr & Hw' & Hpc).
      destruct (decide (w' = w)) as [->|Hne].
      * simplify_eq. destruct (Hdone _ _ Hpc) as (tk' & ? & ?). congruence.
      * exists w', fr', wr. by rewrite list_lookup_insert_ne.
    + apply list_lookup_singleton_Some in Htk as [Hz _].
      assert (i = nclaimed st) as -> by lia.
      eexists w, _, _.
      rewrite list_lookup_insert_eq by (by eapply lookup_lt_Some). done.
  - apply (set_frame_flight (set_stream_finished true (set_workers_up true st))
             w fr0); done.
Qed.

Lemma worker_flight ws a b c st w st' :
  inv_core ws a b c st → flight_ok st → worker w st = Some st' →
  flight_ok st'.
Proof.
  intros Hi Hok Hs. unfold worker in Hs.
  destruct (frames st !! w) as [fr0|] eqn:Hw; [|done].
  pose proof (ir_frames _ _ _ _ _ Hi _ _ Hw) as Hok0.
  pose proof (ir_tee _ _ _ _ _ Hi) as Htee.
  pose proof (ir_c_le _ _ _ _ _ Hi) as Hc.
  pose proof (ir_copy_le _ _ _ _ _ Hi) as Hk.
  pose proof (proj1 (ir_heap _ _ _ _ _ Hi)) as Hlen.
  destruct (w_pc fr0) as [|index wr|fut|] eqn:Hpc.
  - simplify_eq. eapply worker_loop_flight; eauto.
    intros i wr Hpc'. congruence.
  - destruct (w_done fr0) as [dq|] eqn:Hdone; [|done].
    destruct (wrappers st !! wr) as [[r|]|] eqn:Hwr; simplify_eq.
    assert (wr = index) as ->.
    { by eapply (fo_await _ _ _ _ Hok0). }
    assert (index < nclaimed st) as Hlt.
    { apply (pend_range _ _ _ _ index) in Hok0 as [? _]; [lia|].
      unfold pend. rewrite Hpc. apply elem_of_app. right. by left. }
    destruct (ir_tasks _ _ _ _ _ Hi _ Hlt) as (tk & a0 & H1 & H2 & H3 & H4).
    destruct H4 as [[_ H4]|(H4 & H5 & H6)]; [congruence|].
    assert (∀ i wr', w_pc fr0 = WAwait i wr' → task_done st i) as Hd.
    { intros i wr' Hpc'. rewrite Hpc in Hpc'. simplify_eq. by exists tk. }
    unfold worker_put. destruct (full dq).
    + by eapply set_frame_flight.
    + eapply (worker_loop_flight (set_workers_up true st)); eauto.
  - destruct (w_done fr0) as [dq|] eqn:Hdone; [|done].
    destruct (full dq) eqn:Hfull; simplify_eq.
    unfold worker_put. rewrite Hfull.
    eapply (worker_loop_flight (set_workers_up true st)); eauto.
    intros i wr Hpc'. simpl in *. congruence.
  - done.
Qed.

Lemma task_finish_flight st t st' :
  flight_ok st → task_finish t st = Some st' → flight_ok st'.
Proof.
  intros Hok Hs. unfold task_finish in Hs.
  destruct (tasks st !! t) as [tk|] eqn:Ht; [|done].
  destruct (t_done tk); simplify_eq.
  intros i Hin. apply elem_of_in_flight in Hin as (tk' & Htk & Hund).
  simpl in Htk. destruct (decide (i = t)) as [->|Hne].
  { rewrite list_lookup_insert_eq in Htk by (by eapply lookup_lt_Some).
    by simplify_eq. }
  rewrite list_lookup_insert_ne in Htk by done.
  assert (i ∈ in_flight st) as Hin by (apply elem_of_in_flight; eauto).
  by apply Hok in Hin.
Qed.

Lemma task_callback_flight st t st' :
  flight_ok st → task_callback t st = Some st' → flight_ok st'.
Proof.
  intros Hok Hs. unfold task_callback in Hs.
  destruct (tasks st !! t) as [tk|] eqn:Ht; [|done].
  destruct (t_done tk); [|done].
  destruct (t_callbacks tk) as [|wrapper cbs]; simplify_eq.
  intros i Hin. apply elem_of_in_flight in Hin as (tk' & Htk & Hund).
  assert (tasks (_done_callback wrapper t
                   (set_tasks (<[t := {| t_coro := t_coro tk; t_done := true;
                                         t_callbacks := cbs |}]> (tasks st))
                      st))
          = <[t := {| t_coro := t_coro tk; t_done := true;
                      t_callbacks := cbs |}]> (tasks st)) as Htasks.
  { unfold _done_callback. by repeat case_match. }
  assert (frames (_done_callback wrapper t
                    (set_tasks (<[t := {| t_coro := t_coro tk; t_done := true;
                                          t_callbacks := cbs |}]> (tasks st))
                       st))
          = frames st) as Hframes.
  { unfold _done_callback. by repeat case_match. }
  rewrite Htasks in Htk. destruct (decide (i = t)) as [->|Hne].
  { rewrite list_lookup_insert_eq in Htk by (by eapply lookup_lt_Some).
    by simplify_eq. }
  rewrite list_lookup_insert_ne in Htk by done.
  assert (i ∈ in_flight st) as Hin by (apply elem_of_in_flight; eauto).
  apply Hok in Hin. unfold awaited in *. by rewrite Hframes.
Qed.

Lemma step_flight ws a st st' :
  inv ws st → flight_ok st → step a st = Some st' → flight_ok st'.
Proof.
  intros Hi Hok Hs. destruct a as [|w|t|t]; simpl in Hs.
  - eapply keeps_workers_flight; [|done]. by apply collect_step_keeps.
  - destruct (main_busy st) eqn:Hb; [done|].
    destruct (inv_not_busy _ _ Hi Hb) as [Hc _]. by eapply worker_flight.
  - destruct (main_busy st); [done|]. by eapply task_finish_flight.
  - destruct (main_busy st); [done|]. by eapply task_callback_flight.
Qed.

Lemma run_flight ws sched st st' :
  inv ws st → flight_ok st → run sched st = Some st' → flight_ok st'.
Proof.
  revert st. induction sched as [|a sched IH]; intros st Hi Hok Hr;
    simpl in Hr.
  - by simplify_eq.
  - destruct (step a st) as [st1|] eqn:Hs; [|done].
    eapply IH; [by eapply step_inv|by eapply step_flight|done].
Qed.

Lemma collect_flight (aws : list (@outcome T)) len ws g sched st :
  (1 ≤ ws)%Z → (0 ≤ g)%Z →
  run sched (collect aws len ws g) = Some st → flight_ok st.
Proof.
  intros Hws Hg Hr. eapply run_flight; [by apply collect_inv| |done].
  intros i Hin. apply elem_of_in_flight in Hin as (tk & Htk & _). done.
Qed.

End FlightProofs.

(** * What the coordinator guarantees beyond its results *)

Section CoverageProofs.

Context {T : Type}.
Implicit Types st : @state T.

Lemma length_bind_le {A B} (f : A → list B) (l : list A) (n : nat) :
  (∀ x, x ∈ l → length (f x) ≤ n) → length (l ≫= f) ≤ length l * n.
Proof.
  induction l as [|x l IH]; intros Hf; [done|].
  rewrite bind_cons, length_app. simpl.
  pose proof (Hf x ltac:(by left)).
  assert (length (l ≫= f) ≤ length l * n); [|lia].
  apply IH. intros y Hy. apply Hf. by right.
Qed.

Lemma frame_ok_queue st gotn w fr q :
  frame_ok st gotn w fr → w_done fr = Some q →
  maxsize q = worker_greediness st.
Proof.
  intros Hok Hq. pose proof (fo_queue _ _ _ _ Hok) as Hfq.
  destruct (w_pc fr); [congruence|..];
    destruct Hfq as (q' & ? & ?); congruence.
Qed.

Lemma pend_length st gotn w fr :
  frame_ok st gotn w fr → (0 < worker_greediness st)%Z →
  length (pend fr) ≤ Z.to_nat (worker_greediness st) + 1.
Proof.
  intros Hok Hpos. unfold pend, frame_items. rewrite length_app.
  assert (length (pc_pending (w_pc fr)) ≤ 1) as Hpc.
  { destruct (w_pc fr); simpl; lia. }
  destruct (w_done fr) as [q|] eqn:Hq; simpl; [|lia].
  pose proof (frame_ok_queue _ _ _ _ _ Hok Hq) as Hmax.
  pose proof (fo_cap _ _ _ _ Hok _ Hq) as Hcap. unfold qsize in Hcap.
  rewrite length_fmap. lia.
Qed.

(** X1. At any point of any run of [collect], every task that was started
    and has not finished is awaited by a worker, in its [await
    schedule(...)], and a worker awaits one task at a time: the number of
    tasks in flight never exceeds the number of workers spawned, hence
    never exceeds [workers], nor the number of awaitables. *)
Theorem tasks_in_flight_bounded
    (aws : list (@outcome T)) (len : bool) (ws g : Z) sched st :
  (1 ≤ ws)%Z → (0 ≤ g)%Z →
  run sched (collect aws len ws g) = Some st →
  (∀ i, i ∈ in_flight st →
        ∃ w fr, frames st !! w = Some fr ∧ w_pc fr = WAwait i i) ∧
  length (in_flight st) ≤ length (frames st) ∧
  (Z.of_nat (length (in_flight st))
   ≤ Z.min ws (Z.of_nat (length aws)))%Z.
Proof.
  intros Hws Hg Hr.
  pose proof (collect_flight _ _ _ _ _ _ Hws Hg Hr) as Hok.
  pose proof (in_flight_length _ Hok) as Hlen.
  destruct (run_inv_collect _ _ _ _ _ _ Hws Hg Hr) as (Hi & Ha & _).
  destruct Hi as [(Hst & _)|[Hc _]].
  { rewrite Hst. unfold in_flight. simpl. split; [|lia].
    intros i Hin. by apply elem_of_nil in Hin. }
  split; [|split; [done|]].
  - intros i Hin. apply Hok, elem_of_awaited in Hin
      as (w & fr & wr & Hw & Hpc).
    exists w, fr. split; [done|].
    pose proof (ir_frames _ _ _ _ _ Hc _ _ Hw) as Hfo.
    by rewrite (fo_await _ _ _ _ Hfo _ _ Hpc) in Hpc.
  - pose proof (ir_nframes _ _ _ _ _ Hc) as Hnf.
    destruct (ir_workers _ _ _ _ _ Hc) as (Hw1 & _).
    pose proof (ir_c_le _ _ _ _ _ Hc) as Hcle.
    pose proof (proj1 (ir_heap _ _ _ _ _ Hc)) as Hheap.
    assert (length (in_flight st) ≤ length (tasks st)) as Hfl.
    { unfold in_flight. etrans; [apply length_filter|].
      by rewrite length_seq. }
    rewrite Ha in Hcle. lia.
Qed.

(** X2. With [worker_greediness >= 1] the coordinator does not run ahead
    of its consumer: the number of tasks started never exceeds the number
    of results [collect] has taken by more than [worker_greediness + 1]
    per worker spawned. *)
Theorem started_tasks_bounded
    (aws : list (@outcome T)) (len : bool) (ws g : Z) sched st :
  (1 ≤ ws)%Z → (0 < g)%Z →
  run sched (collect aws len ws g) = Some st →
  length (tasks st) ≤ got st + length (frames st) * (Z.to_nat g + 1) ∧
  (Z.of_nat (length (tasks st))
   ≤ Z.of_nat (length (acc st)) + 1 + ws * (g + 1))%Z.
Proof.
  intros Hws Hg Hr. assert (0 ≤ g)%Z as Hg0 by lia.
  destruct (run_inv_collect _ _ _ _ _ _ Hws Hg0 Hr) as (Hi & Ha & _ & Hgr).
  destruct Hi as [(Hst & _)|[Hc _]].
  { rewrite Hst. simpl. split; [lia|nia]. }
  pose proof (proj1 (ir_heap _ _ _ _ _ Hc)) as Hheap.
  pose proof (ir_got _ _ _ _ _ Hc) as Hgot.
  pose proof (ir_nframes _ _ _ _ _ Hc) as Hnf.
  destruct (ir_workers _ _ _ _ _ Hc) as (Hw1 & _).
  assert (nclaimed st - got st
          ≤ length (frames st) * (Z.to_nat g + 1)) as Hbound.
  { trans (length (seq (got st) (nclaimed st - got st)));
      [by rewrite length_seq|].
    etrans; [|apply (length_bind_le pend)].
    - apply submseteq_length, NoDup_submseteq; [apply NoDup_seq|].
      intros i Hin. apply elem_of_seq in Hin.
      destruct (ir_claimed _ _ _ _ _ Hc i ltac:(lia)) as (w & Hcl & Hlt).
      destruct (lookup_lt_is_Some_2 _ _ Hlt) as [fr Hw].
      apply list_elem_of_bind. exists fr.
      split; [|by eapply list_elem_of_lookup_2].
      rewrite (fo_pend _ _ _ _ (ir_frames _ _ _ _ _ Hc _ _ Hw)).
      apply list_elem_of_filter. split; [done|]. apply elem_of_seq. lia.
    - intros fr Hin. apply list_elem_of_lookup in Hin as [w Hw].
      rewrite <- Hgr.
      apply (pend_length st (got st) w);
        [apply (ir_frames _ _ _ _ _ Hc _ _ Hw)|lia]. }
  split; [lia|].
  assert (got st ≤ length (acc st) + 1) as Hacc.
  { unfold got. destruct (main st); lia. }
  nia.
Qed.

(** X3. When [collect] returns, nothing is left behind: every awaitable
    was started and every task has finished, no result waits in a queue,
    and each worker has ended, or was spawned and has not run yet (it
    will find the stream exhausted). *)
Theorem nothing_left_when_collect_returns
    (aws : list (@outcome T)) (len : bool) (ws g : Z) sched st r :
  (1 ≤ ws)%Z → (0 ≤ g)%Z →
  run sched (collect aws len ws g) = Some st →
  main st = MReturned r →
  length (tasks st) = length aws ∧
  in_flight st = [] ∧
  ∀ w fr, frames st !! w = Some fr →
          frame_items fr = [] ∧ (w_pc fr = WStart ∨ w_pc fr = WEnd).
Proof.
  intros Hws Hg Hr Hm.
  pose proof (collect_flight _ _ _ _ _ _ Hws Hg Hr) as Hok.
  destruct (run_inv_collect _ _ _ _ _ _ Hws Hg Hr) as (Hi & Ha & _).
  destruct Hi as [(Hst & _)|[Hc Hmain]]; [by rewrite Hst in Hm|].
  unfold main_ok in Hmain. rewrite Hm in Hmain.
  destruct Hmain as (_ & _ & Hlen).
  pose proof (ir_got _ _ _ _ _ Hc) as Hgot. unfold got in Hgot.
  rewrite Hm in Hgot.
  pose proof (ir_c_le _ _ _ _ _ Hc) as Hcle.
  pose proof (proj1 (ir_heap _ _ _ _ _ Hc)) as Hheap.
  assert (∀ w fr, frames st !! w = Some fr →
            frame_items fr = [] ∧ (w_pc fr = WStart ∨ w_pc fr = WEnd))
    as Hfr.
  { intros w fr Hw.
    pose proof (fo_pend _ _ _ _ (ir_frames _ _ _ _ _ Hc _ _ Hw)) as Hp.
    unfold got in Hp. rewrite Hm in Hp.
    replace (nclaimed st - length (acc st)) with 0 in Hp by lia.
    simpl in Hp. unfold pend in Hp. apply app_eq_nil in Hp as [Hit Hpc].
    split; [done|]. destruct (w_pc fr); simpl in *; auto; done. }
  split; [rewrite <- Ha; lia|]. split; [|done].
  destruct (in_flight st) as [|i l] eqn:Hfl; [done|].
  assert (i ∈ in_flight st) as Hin by (rewrite Hfl; by left).
  apply Hok, elem_of_awaited in Hin as (w & fr & wr & Hw & Hpc).
  destruct (Hfr _ _ Hw) as [_ [?|?]]; congruence.
Qed.

(** ** Runs to the end *)




End CoverageProofs.

(** * The generator of [resolve] on its own *)

Section LazyProofs.

Context {T : Type}.
Implicit Types st : @state T.

Lemma resolve_nexts_closed n st :
  gen st = GenClosed → resolve_nexts n st = (replicate n GStop, st).
Proof.
  intros Hg. induction n as [|n IH]; [done|].
  simpl. unfold resolve_next. by rewrite Hg, IH.
Qed.

Lemma resolve_nexts_suspended n st k :
  gen st = GenSuspended →
  stream st = tee_at (awaitables st) 0 k →
  k ≤ length (awaitables st) →
  ∃ st',
    resolve_nexts n st
    = ((GYield <$> seq k (n `min` (length (awaitables st) - k)))
       ++ replicate (n - (length (awaitables st) - k)) GStop, st') ∧
    frames st' = frames st ∧ tasks st' = tasks st ∧
    claimed st' = claimed st ∧ store st' = store st ∧
    workers_tasks st' = workers_tasks st.
Proof.
  revert st k. induction n as [|n IH]; intros st k Hg Htee Hk.
  { exists st. by rewrite Nat.min_0_l. }
  cbn [resolve_nexts]. unfold resolve_next. rewrite Hg. unfold resolve_loop.
  rewrite Htee, tee_next2_at by lia.
  destruct (awaitables st !! k) as [a|] eqn:Ha.
  - pose proof (lookup_lt_Some _ _ _ Ha) as Hlt.
    assert (∃ st',
              resolve_nexts n
                (set_gen GenSuspended
                   (set_stream (tee_at (awaitables st) 0 (S k)) st))
              = ((GYield <$> seq (S k)
                               (n `min` (length (awaitables st) - S k)))
                 ++ replicate (n - (length (awaitables st) - S k)) GStop,
                 st') ∧
              frames st' = frames st ∧ tasks st' = tasks st ∧
              claimed st' = claimed st ∧ store st' = store st ∧
              workers_tasks st' = workers_tasks st)
      as (st' & Hn & Hrest).
    { apply (IH (set_gen GenSuspended
                   (set_stream (tee_at (awaitables st) 0 (S k)) st)) (S k));
        [done|done|]. cbn [awaitables set_gen set_stream]. lia. }
    rewrite Hn. exists st'. split; [|done]. f_equal.
    replace (S n `min` (length (awaitables st) - k))
      with (S (n `min` (length (awaitables st) - S k))) by lia.
    replace (S n - (length (awaitables st) - k))
      with (n - (length (awaitables st) - S k)) by lia.
    done.
  - pose proof (lookup_ge_None_1 _ _ Ha) as Hge.
    rewrite resolve_nexts_closed by done.
    exists (set_gen GenClosed st). split; [|done]. f_equal.
    replace (length (awaitables st) - k) with 0 by lia.
    by rewrite Nat.min_0_r, Nat.sub_0_r.
Qed.

(** X5. The generator of [resolve] is lazy and single-pass: with valid
    arguments, [n] calls of [next] in a row, without awaiting anything,
    give the accessors of the indices [0, 1, ...] in order, one per
    awaitable, and then only end the iteration; they spawn no worker,
    start no task, take nothing from [stream] and leave [store] empty. *)
Theorem resolve_is_lazy
    (aws : list (@outcome T)) (len : bool) (ws g : Z) (n : nat) :
  (1 ≤ ws)%Z → (0 ≤ g)%Z →
  ∃ st',
    resolve_nexts n (resolve aws len ws g)
    = ((GYield <$> seq 0 (n `min` length aws))
       ++ replicate (n - length aws) GStop, st') ∧
    frames st' = [] ∧ tasks st' = [] ∧ claimed st' = [] ∧
    store st' = ∅ ∧ workers_tasks st' = ∅.
Proof.
  intros Hws Hg. destruct n as [|n].
  { eexists. split; [reflexivity|]. done. }
  simpl. unfold resolve_next. simpl.
  destruct (Z.ltb_spec ws 1) as [?|_]; [lia|].
  destruct (Z.ltb_spec g 0) as [?|_]; [lia|].
  unfold resolve_loop. simpl.
  assert (awaitables (if len
                      then set_workers (Z.min ws (Z.of_nat (length aws)))
                             (resolve aws len ws g)
                      else resolve aws len ws g) = aws) as ->.
  { by destruct len. }
  destruct aws as [|a aws].
  - simpl. rewrite resolve_nexts_closed by done. eexists.
    split; [reflexivity|]. by destruct len.
  - cbn [tee_next2 tee_new deque2 tee_it enumerate_next en_rest en_count
         deque1 app].
    match goal with
    | |- context [resolve_nexts n ?s] =>
        destruct (resolve_nexts_suspended n s 1)
          as (st' & Hn & H1 & H2 & H3 & H4 & H5)
    end.
    + done.
    + simpl. by destruct len.
    + simpl. destruct len; simpl; lia.
    + rewrite Hn. exists st'.
      assert (∀ s : @state T,
                awaitables (set_gen GenSuspended
                              (set_stream
                                 {| tee_it := Enumerate 1 aws;
                                    deque1 := [(0, a)]; deque2 := [] |} s))
                = awaitables s) as Haw by done.
      simpl in *.
      replace (awaitables (if len
                           then set_workers
                                  (Z.min ws (Z.of_nat (S (length aws))))
                                  (resolve (a :: aws) len ws g)
                           else resolve (a :: aws) len ws g))
        with (a :: aws) in * by (by destruct len).
      simpl in *. rewrite Nat.sub_0_r in Hn |- *.
      split; [done|]. destruct len; simpl in *; done.
Qed.

End LazyProofs.

(** * The entries of [store] *)

Section StoreProofs.

Context {T : Type}.
Implicit Types st : @state T.

Lemma popped_le ws st : inv_run ws st → popped st ≤ nclaimed st.
Proof.
  intros [Hc Hm]. pose proof (ir_got _ _ _ _ _ Hc) as Hgot.
  unfold main_ok in Hm. unfold popped, got in *.
  destruct (main st); try lia.
  destruct Hm as (_ & -> & _ & Hcl). apply lookup_lt_Some in Hcl.
  unfold nclaimed. lia.
Qed.

Lemma worker_loop_store st w dq k :
  stream st = tee_at (awaitables st) (nclaimed st) k →
  nclaimed st ≤ length (awaitables st) → k ≤ length (awaitables st) →
  popped st ≤ nclaimed st →
  store_ok st → store_ok (worker_loop w dq st).
Proof.
  intros Htee Hc Hk Hp Hok.
  unfold worker_loop. rewrite Htee, tee_next1_at by done.
  destruct (awaitables st !! nclaimed st) as [aw|] eqn:Haw; [|done].
  unfold schedule, set_frame. intros i Hi.
  unfold store_ok, popped, nclaimed in *. simpl in *.
  rewrite length_app. simpl.
  destruct (decide (i = length (claimed st))) as [->|Hne]; [lia|].
  rewrite lookup_insert_ne in Hi by done. specialize (Hok i Hi). lia.
Qed.

Lemma worker_store ws a b c st w st' :
  inv_core ws a b c st → popped st ≤ nclaimed st →
  store_ok st → worker w st = Some st' → store_ok st'.
Proof.
  intros Hi Hp Hok Hs.
  pose proof (ir_tee _ _ _ _ _ Hi) as Htee.
  pose proof (ir_c_le _ _ _ _ _ Hi) as Hc.
  pose proof (ir_copy_le _ _ _ _ _ Hi) as Hk.
  unfold worker, worker_put in Hs.
  repeat case_match; simplify_eq; try done;
    first [ by eapply worker_loop_store
          | by eapply (worker_loop_store (set_workers_up true st)) ].
Qed.

Lemma task_finish_store st t st' :
  store_ok st → task_finish t st = Some st' → store_ok st'.
Proof.
  intros Hok Hs. unfold task_finish in Hs.
  repeat case_match; simplify_eq. done.
Qed.

Lemma task_callback_store st t st' :
  store_ok st → task_callback t st = Some st' → store_ok st'.
Proof.
  intros Hok Hs. unfold task_callback, _done_callback in Hs.
  repeat case_match; simplify_eq; done.
Qed.

Lemma get_one_get_store k w st st' :
  get_one_get k w st = Some st' →
  store st' = store st ∧ claimed st' = claimed st ∧
  popped st' = S (length (acc st)).
Proof.
  unfold get_one_get, set_frame. intros Hs.
  repeat case_match; simplify_eq; unfold popped; simpl;
    rewrite ?length_app; simpl; repeat split; try done; lia.
Qed.

Lemma get_one_pop_store k st st' :
  get_one_pop k st = Some st' →
  store st' = delete k (store st) ∧ claimed st' = claimed st ∧
  popped st' = S (length (acc st)).
Proof.
  unfold get_one_pop. intros Hs. destruct (store st !! k) eqn:Hk.
  - by apply get_one_get_store in Hs.
  - simplify_eq. by rewrite delete_id.
Qed.

Lemma start_workers_store k j st st' :
  start_workers k j st = Some st' →
  claimed st' = claimed st ∧
  ((store st' = store st ∧ popped st' = length (acc st)) ∨
   (store st' = delete k (store st) ∧ popped st' = S (length (acc st)))).
Proof.
  unfold start_workers, start_workers_wait. intros Hs.
  repeat case_match; simplify_eq;
    try (apply get_one_pop_store in Hs as (? & ? & ?); by eauto);
    split; try done; by left.
Qed.

Lemma get_one_store k st st' :
  get_one k st = Some st' →
  claimed st' = claimed st ∧
  ((store st' = store st ∧ popped st' = length (acc st)) ∨
   (store st' = delete k (store st) ∧ popped st' = S (length (acc st)))).
Proof.
  unfold get_one. intros Hs. destruct (decide _).
  - by apply start_workers_store in Hs.
  - apply get_one_pop_store in Hs as (? & ? & ?). by eauto.
Qed.

(** What is left after the entry of index [k = length (acc st)] went. *)
Lemma store_ok_pop st st' k :
  store_ok st → popped st = k →
  claimed st' = claimed st →
  (store st' = store st ∧ popped st' = k) ∨
  (store st' = delete k (store st) ∧ popped st' = S k) →
  store_ok st'.
Proof.
  intros Hok Hp Hcl Hcase i Hi. unfold nclaimed. rewrite Hcl.
  destruct Hcase as [[Hs Hp']|[Hs Hp']]; rewrite Hs in Hi; rewrite Hp'.
  - specialize (Hok i Hi). unfold nclaimed in Hok. lia.
  - apply lookup_delete_is_Some in Hi as [Hne Hi].
    specialize (Hok i Hi). unfold nclaimed in Hok. lia.
Qed.

Lemma collect_step_store ws st st' :
  inv ws st → store_ok st → collect_step st = Some st' → store_ok st'.
Proof.
  intros Hi Hok Hs. unfold collect_step in Hs.
  destruct Hi as [(Hst & _)|[Hc Hm]].
  { (* the first run: [store] is empty at the end *)
    assert (store st' = ∅) as Hempty.
    { rewrite Hst in Hs. unfold collect, resolve in Hs. simpl in Hs.
      unfold resolve_next, resolve_loop in Hs. simpl in Hs.
      repeat case_match; simplify_eq; simpl in *; simplify_eq; try done;
        match goal with
        | H : get_one _ _ = Some _ |- _ =>
            apply get_one_store in H as (_ & [[H _]|[H _]]);
            rewrite H; simpl; by rewrite ?delete_empty
        end. }
    intros i [x Hx]. by rewrite Hempty in Hx. }
  unfold main_ok in Hm.
  destruct (main st) as [|index j|index|index w|r|e] eqn:Hmain; try done.
  - destruct Hm as [Hgen _]. unfold resolve_next in Hs. rewrite Hgen in Hs.
    unfold resolve_loop in Hs.
    rewrite (ir_tee _ _ _ _ _ Hc) in Hs.
    rewrite tee_next2_at in Hs
      by (first [apply (ir_c_le _ _ _ _ _ Hc)|apply (ir_copy_le _ _ _ _ _ Hc)]).
    unfold copy_pos in Hs. rewrite Hmain in Hs.
    destruct (awaitables st !! length (acc st)) as [a|]; simpl in Hs.
    + apply get_one_store in Hs as [Hcl Hcase]. simpl in *.
      eapply (store_ok_pop st); [done| |done|done].
      unfold popped. by rewrite Hmain.
    + simplify_eq. intros i Hi. specialize (Hok i Hi).
      unfold popped, nclaimed in *. simpl. by rewrite Hmain in Hok.
  - destruct Hm as (_ & -> & Hacc & _).
    apply start_workers_store in Hs as [Hcl Hcase]. rewrite Hacc in Hcase.
    eapply (store_ok_pop st); [done| |done|done].
    unfold popped. by rewrite Hmain, Hacc.
  - destruct Hm as (_ & -> & Hacc & _).
    destruct (workers_up st); [|done].
    apply get_one_pop_store in Hs as (Hs1 & Hcl & Hp). rewrite Hacc in Hp.
    eapply (store_ok_pop st); [done| |done|by right].
    unfold popped. by rewrite Hmain, Hacc.
  - assert (get_one_get index w st = Some st') as Hg.
    { by repeat case_match. }
    apply get_one_get_store in Hg as (Hs1 & Hcl & Hp).
    intros i Hi. rewrite Hs1 in Hi. specialize (Hok i Hi).
    unfold nclaimed in *. rewrite Hcl, Hp.
    unfold popped in Hok. by rewrite Hmain in Hok.
Qed.

Lemma step_store ws a st st' :
  inv ws st → store_ok st → step a st = Some st' → store_ok st'.
Proof.
  intros Hi Hok Hs. destruct a as [|w|t|t]; simpl in Hs.
  - by eapply collect_step_store.
  - destruct (main_busy st) eqn:Hb; [done|].
    pose proof (inv_not_busy _ _ Hi Hb) as Hrun.
    eapply worker_store; [apply Hrun|by eapply popped_le|done|done].
  - destruct (main_busy st); [done|]. by eapply task_finish_store.
  - destruct (main_busy st); [done|]. by eapply task_callback_store.
Qed.

Lemma run_store ws sched st st' :
  inv ws st → store_ok st → run sched st = Some st' → store_ok st'.
Proof.
  revert st. induction sched as [|a sched IH]; intros st Hi Hok Hr;
    simpl in Hr.
  - by simplify_eq.
  - destruct (step a st) as [st1|] eqn:Hs; [|done].
    eapply IH; [by eapply step_inv|by eapply step_store|done].
Qed.

(** X6. In every state of every run of [collect], [store] holds exactly
    the entries of the indices that a worker claimed and that [collect]
    has not popped: an entry is added when its index is claimed and is
    removed once, in index order, so none is left when [collect] has
    returned. *)
Theorem store_holds_the_unpopped_indices
    (aws : list (@outcome T)) (len : bool) (ws g : Z) sched st :
  (1 ≤ ws)%Z → (0 ≤ g)%Z →
  run sched (collect aws len ws g) = Some st →
  (∀ i, is_Some (store st !! i) ↔ popped st ≤ i < nclaimed st) ∧
  (∀ i w, store st !! i = Some w → claimed st !! i = Some (w, i)) ∧
  (∀ r, main st = MReturned r → store st = ∅).
Proof.
  intros Hws Hg Hr.
  assert (store_ok st) as Hok.
  { eapply run_store; [by apply collect_inv| |done].
    intros i [x Hx]. done. }
  destruct (run_inv_collect _ _ _ _ _ _ Hws Hg Hr) as (Hi & Ha & _).
  destruct Hi as [(Hst & _)|[Hc Hm]].
  { rewrite Hst. unfold popped, nclaimed. simpl.
    split; [|split; [|done]].
    - intros i. rewrite lookup_empty. split; [by intros [? ?]|lia].
    - intros i w Hl. by rewrite lookup_empty in Hl. }
  split; [|split].
  - intros i. split; [apply Hok|]. intros Hrange.
    destruct (ir_store _ _ _ _ _ Hc i Hrange) as (w & _ & Hs). by eauto.
  - intros i w Hl. destruct (ir_store _ _ _ _ _ Hc i) as (w' & Hcl & Hs).
    { apply Hok. by eauto. }
    congruence.
  - intros r Hmr. apply map_eq. intros i. rewrite lookup_empty.
    destruct (store st !! i) as [w|] eqn:Hl; [|done].
    destruct (Hok i) as [Hlo Hhi]; [by eauto|].
    unfold main_ok in Hm. rewrite Hmr in Hm. destruct Hm as (_ & _ & Hlen).
    pose proof (ir_c_le _ _ _ _ _ Hc). unfold popped in Hlo.
    rewrite Hmr in Hlo. lia.
Qed.

End StoreProofs.

(** ** Instances *)

Lemma tasks_in_flight_bounded_witness :
  (1 ≤ 2)%Z ∧ (0 ≤ 0)%Z ∧
  ∃ st,
    run slow_first_schedule
      (collect [Returns 10%Z; Returns 20%Z; Returns 30%Z] true 2 0) = Some st ∧
    in_flight st = [0] ∧
    length (in_flight st) ≤ length (frames st).
Proof.
  split; [lia|]. split; [lia|]. eexists. split; [vm_compute; reflexivity|].
  split; [vm_compute; reflexivity|].
  apply (tasks_in_flight_bounded
           [Returns 10%Z; Returns 20%Z; Returns 30%Z] true 2 0
           slow_first_schedule); [lia|lia|vm_compute; reflexivity].
Defined.

Lemma started_tasks_bounded_witness :
  (1 ≤ 2)%Z ∧ (0 < 1)%Z ∧
  ∃ st,
    run slow_first_schedule
      (collect [Returns 10%Z; Returns 20%Z; Returns 30%Z] true 2 1) = Some st ∧
    length (tasks st) ≤ got st + length (frames st) * (Z.to_nat 1 + 1).
Proof.
  split; [lia|]. split; [lia|]. eexists. split; [vm_compute; reflexivity|].
  apply (started_tasks_bounded
           [Returns 10%Z; Returns 20%Z; Returns 30%Z] true 2 1
           slow_first_schedule); [lia|lia|vm_compute; reflexivity].
Defined.

Lemma nothing_left_when_collect_returns_witness :
  (1 ≤ 2)%Z ∧ (0 ≤ 0)%Z ∧
  ∃ st,
    run (slow_first_schedule
         ++ [TaskDone 0; Callback 0; Worker 0; Main; Main; Main; Main])
      (collect [Returns 1%Z; Returns 2%Z; Returns 3%Z] true 2 0) = Some st ∧
    main st = MReturned [1; 2; 3]%Z ∧
    in_flight st = [].
Proof.
  split; [lia|]. split; [lia|]. eexists. split; [vm_compute; reflexivity|].
  split; [vm_compute; reflexivity|].
  refine (proj1 (proj2
    (nothing_left_when_collect_returns
       [Returns 1%Z; Returns 2%Z; Returns 3%Z] true 2 0
       (slow_first_schedule
        ++ [TaskDone 0; Callback 0; Worker 0; Main; Main; Main; Main])
       _ [1; 2; 3]%Z _ _ _ _)));
    first [lia | vm_compute; reflexivity].
Defined.


Lemma resolve_is_lazy_witness :
  (1 ≤ 2)%Z ∧ (0 ≤ 0)%Z ∧
  ∃ st',
    resolve_nexts 5 (resolve [Returns 1%Z; Returns 2%Z; Returns 3%Z] true 2 0)
    = ([GYield 0; GYield 1; GYield 2; GStop; GStop], st') ∧
    frames st' = [] ∧ tasks st' = [] ∧ claimed st' = [] ∧
    store st' = ∅ ∧ workers_tasks st' = ∅.
Proof.
  split; [lia|]. split; [lia|].
  apply (resolve_is_lazy [Returns 1%Z; Returns 2%Z; Returns 3%Z] true 2 0 5);
    lia.
Defined.

Lemma store_holds_the_unpopped_indices_witness :
  (1 ≤ 2)%Z ∧ (0 ≤ 0)%Z ∧
  ∃ st,
    run slow_first_schedule
      (collect [Returns 10%Z; Returns 20%Z; Returns 30%Z] true 2 0) = Some st ∧
    ∀ i, is_Some (store st !! i) ↔ popped st ≤ i < nclaimed st.
Proof.
  split; [lia|]. split; [lia|]. eexists. split; [vm_compute; reflexivity|].
  apply (store_holds_the_unpopped_indices
           [Returns 10%Z; Returns 20%Z; Returns 30%Z] true 2 0
           slow_first_schedule); [lia|lia|vm_compute; reflexivity].
Defined.

(** * The executor pool under any sequence of calls *)

(** Every executor that is not shut down is the one [_pool] refers to. *)
Lemma pool_apply_single cls c s :
  ExecutorPool.wf s →
  (∀ r e, ExecutorPool.heap s !! r = Some e → ExecutorPool.down e = None →
          ExecutorPool._pool s = Some r) →
  ExecutorPool.wf (pool_apply cls c s) ∧
  (∀ r e, ExecutorPool.heap (pool_apply cls c s) !! r = Some e →
          ExecutorPool.down e = None →
          ExecutorPool._pool (pool_apply cls c s) = Some r).
Proof.
  intros Hwf Hone. split.
  { destruct c; [by apply executor_pool_wf_initialize|
                 by apply executor_pool_wf_shutdown]. }
  destruct s as [p h]. unfold ExecutorPool.wf in Hwf. simpl in *.
  assert (∀ r0 w r e,
            p = Some r0 →
            ExecutorPool.executor_shutdown r0 w h !! r = Some e →
            ExecutorPool.down e = None → False) as Hshut.
  { intros r0 w r e -> Hl Hd. unfold ExecutorPool.executor_shutdown in Hl.
    destruct (lookup_lt_is_Some_2 h r0 Hwf) as [e0 He0]. rewrite He0 in Hl.
    destruct (decide (r = r0)) as [->|Hne].
    - rewrite list_lookup_insert_eq in Hl by done. by simplify_eq.
    - rewrite list_lookup_insert_ne in Hl by done.
      specialize (Hone _ _ Hl Hd). by simplify_eq. }
  intros r e Hl Hd. destruct c as [mw|wait]; simpl in *.
  - unfold ExecutorPool.initialize in *. simpl in *.
    destruct (cls mw); simpl in *.
    + destruct p as [r0|].
      * apply lookup_app_Some in Hl as [Hl|[Hge Hl]].
        { destruct (Hshut r0 false r e eq_refl Hl Hd). }
        apply list_lookup_singleton_Some in Hl as [Hz _].
        f_equal. lia.
      * apply lookup_app_Some in Hl as [Hl|[Hge Hl]].
        { by specialize (Hone _ _ Hl Hd). }
        apply list_lookup_singleton_Some in Hl as [Hz _].
        f_equal. lia.
    + destruct p as [r0|].
      * destruct (Hshut r0 false r e eq_refl Hl Hd).
      * by specialize (Hone _ _ Hl Hd).
  - unfold ExecutorPool.shutdown in *. simpl in *.
    destruct p as [r0|]; simpl in *.
    + destruct (Hshut r0 wait r e eq_refl Hl Hd).
    + by specialize (Hone _ _ Hl Hd).
Qed.

Lemma pool_calls_snoc cls cs c s :
  pool_calls cls (cs ++ [c]) s = pool_apply cls c (pool_calls cls cs s).
Proof. unfold pool_calls. by rewrite foldl_app. Qed.

Lemma pool_calls_single cls cs :
  ExecutorPool.wf (pool_calls cls cs ExecutorPool.init) ∧
  (∀ r e,
     ExecutorPool.heap (pool_calls cls cs ExecutorPool.init) !! r = Some e →
     ExecutorPool.down e = None →
     ExecutorPool._pool (pool_calls cls cs ExecutorPool.init) = Some r).
Proof.
  induction cs as [|c cs IH] using rev_ind.
  - split; [done|]. by intros r e Hl.
  - rewrite pool_calls_snoc. destruct IH as [Hwf Hone].
    by apply pool_apply_single.
Qed.

(** X7. However [initialize] and [shutdown] are called on a fresh
    [ExecutorPool], and whether or not the executor class refuses some of
    the sizes, [_pool] refers to an executor that was built, and every
    executor ever built other than the one [_pool] refers to has been shut
    down: at most one executor is live, and none is left behind. *)
Theorem executor_pool_no_executor_left_behind
    (cls : option Z → bool) (cs : list pool_call) :
  ExecutorPool.wf (pool_calls cls cs ExecutorPool.init) ∧
  (∀ r e,
     ExecutorPool.heap (pool_calls cls cs ExecutorPool.init) !! r = Some e →
     ExecutorPool._pool (pool_calls cls cs ExecutorPool.init) ≠ Some r →
     is_Some (ExecutorPool.down e)) ∧
  (∀ r r' e e',
     ExecutorPool.heap (pool_calls cls cs ExecutorPool.init) !! r = Some e →
     ExecutorPool.heap (pool_calls cls cs ExecutorPool.init) !! r' = Some e' →
     ExecutorPool.down e = None → ExecutorPool.down e' = None → r = r').
Proof.
  destruct (pool_calls_single cls cs) as [Hwf Hone].
  split; [done|]. split.
  - intros r e Hl Hne. destruct (ExecutorPool.down e) eqn:Hd; [by eauto|].
    by specialize (Hone _ _ Hl Hd).
  - intros r r' e e' Hl Hl' Hd Hd'.
    pose proof (Hone _ _ Hl Hd). pose proof (Hone _ _ Hl' Hd'). congruence.
Qed.

(** X8. When the executor class accepts every size it is given, the pool
    reflects the last call made on it, whatever came before: after
    [initialize(max_workers=mw)] the [pool] property gives an executor
    built with [mw] that is not shut down; after [shutdown], or before any
    call, it raises the not-initialized error. *)
Theorem executor_pool_reflects_last_call
    (cls : option Z → bool) (cs : list pool_call) :
  (∀ mw, Initialize mw ∈ cs → cls mw = true) →
  match last_size cs with
  | Some mw =>
      ∃ r, ExecutorPool.pool (pool_calls cls cs ExecutorPool.init) = inr r ∧
           ExecutorPool.heap (pool_calls cls cs ExecutorPool.init) !! r
           = Some (ExecutorPool.Executor mw None)
  | None =>
      ExecutorPool.pool (pool_calls cls cs ExecutorPool.init)
      = inl (RuntimeError "Must Call initialize first")
  end.
Proof.
  intros Hcls. unfold last_size.
  destruct cs as [|c0 cs0] using rev_ind; [done|]. clear IHcs0.
  rewrite last_snoc, pool_calls_snoc.
  destruct (pool_calls_single cls cs0) as [Hwf _].
  destruct (pool_calls cls cs0 ExecutorPool.init) as [p h].
  destruct c0 as [mw|wait]; simpl.
  - unfold ExecutorPool.initialize. simpl.
    rewrite Hcls by (apply elem_of_app; right; by apply list_elem_of_singleton).
    simpl. eexists. split; [reflexivity|].
    by rewrite lookup_app_r, Nat.sub_diag.
  - unfold ExecutorPool.shutdown. simpl. by destruct p.
Qed.

(** X9. An [initialize] whose size the executor class refuses, on a pool
    that has an executor: the call raises, the pool still counts as
    initialized and its [pool] property still gives the old executor, but
    that executor has been shut down with [wait=False].  On a pool without
    an executor the refused call changes nothing. *)
Theorem refused_initialize_shuts_the_pool_down
    (cls : option Z → bool) (mw : option Z) (s : ExecutorPool.t) :
  ExecutorPool.wf s →
  cls mw = false →
  ∃ e, (ExecutorPool.initialize cls mw s).2 = Some e ∧
  match ExecutorPool._pool s with
  | Some r =>
      ExecutorPool.initialized (ExecutorPool.initialize cls mw s).1 = true ∧
      ExecutorPool.pool (ExecutorPool.initialize cls mw s).1 = inr r ∧
      ∃ x, ExecutorPool.heap s !! r = Some x ∧
           ExecutorPool.heap (ExecutorPool.initialize cls mw s).1 !! r
           = Some (ExecutorPool.Executor (ExecutorPool.max_workers x)
                     (Some false))
  | None => (ExecutorPool.initialize cls mw s).1 = s
  end.
Proof.
  intros Hwf Hcls. destruct s as [[r|] h];
    unfold ExecutorPool.initialize, ExecutorPool.wf in *; simpl in *;
    rewrite Hcls; simpl; eexists; (split; [reflexivity|]); [|done].
  split; [done|]. split; [done|].
  destruct (lookup_lt_is_Some_2 h r Hwf) as [x Hx]. exists x. split; [done|].
  unfold ExecutorPool.executor_shutdown. rewrite Hx.
  by apply list_lookup_insert_eq.
Qed.

Lemma refused_initialize_shuts_the_pool_down_witness :
  ExecutorPool.wf
    (ExecutorPool.initialize ExecutorPool.positive_size (Some 4%Z)
       ExecutorPool.init).1 ∧
  ExecutorPool.positive_size (Some 0%Z) = false ∧
  ∃ e,
    (ExecutorPool.initialize ExecutorPool.positive_size (Some 0%Z)
       (ExecutorPool.initialize ExecutorPool.positive_size (Some 4%Z)
          ExecutorPool.init).1).2 = Some e.
Proof.
  split; [vm_compute; lia|]. split; [reflexivity|].
  destruct (refused_initialize_shuts_the_pool_down
              ExecutorPool.positive_size (Some 0%Z)
              (ExecutorPool.initialize ExecutorPool.positive_size (Some 4%Z)
                 ExecutorPool.init).1) as (e & He & _);
    [vm_compute; lia|reflexivity|].
  by exists e.
Defined.

Lemma executor_pool_reflects_last_call_witness :
  (∀ mw, Initialize mw ∈ [Initialize (Some 4%Z); Shutdown true;
                            Initialize (Some 2%Z)] →
         ExecutorPool.positive_size mw = true) ∧
  ∃ r,
    ExecutorPool.pool
      (pool_calls ExecutorPool.positive_size
         [Initialize (Some 4%Z); Shutdown true; Initialize (Some 2%Z)]
         ExecutorPool.init) = inr r ∧
    ExecutorPool.heap
      (pool_calls ExecutorPool.positive_size
         [Initialize (Some 4%Z); Shutdown true; Initialize (Some 2%Z)]
         ExecutorPool.init) !! r
    = Some (ExecutorPool.Executor (Some 2%Z) None).
Proof.
  assert (∀ mw, Initialize mw ∈ [Initialize (Some 4%Z); Shutdown true;
                                   Initialize (Some 2%Z)] →
                ExecutorPool.positive_size mw = true) as Hok.
  { intros mw Hin. repeat (apply elem_of_cons in Hin as [Hin|Hin]);
      simplify_eq; try reflexivity. by apply elem_of_nil in Hin. }
  split; [exact Hok|].
  exact (executor_pool_reflects_last_call ExecutorPool.positive_size
           [Initialize (Some 4%Z); Shutdown true; Initialize (Some 2%Z)] Hok).
Defined.

(** * [unblock] and [unblock_cpu] *)

Section UnblockProofs.

Context {T : Type}.
Implicit Types f : @outcome T.


(** X10. [unblock] on a thread pool that has no executor builds one with
    [10 * CPU_COUNT] workers (the class accepting that size), and on a
    pool that has a live executor changes nothing: in both cases the
    function is run in the executor of the pool, the caller gets what the
    function returns or raises, and the process pool is not touched. *)
Theorem unblock_builds_the_pool_once
    (cpu : option Z) (cls_t : option Z → bool) f (g : pools) :
  ExecutorPool.wf (THREAD_POOL g) →
  cls_t (Some (10 * CPU_COUNT cpu)%Z) = true →
  (∀ r e, ExecutorPool._pool (THREAD_POOL g) = Some r →
          ExecutorPool.heap (THREAD_POOL g) !! r = Some e →
          ExecutorPool.down e = None) →
  (unblock cpu cls_t f g).2 = f ∧
  PROCESS_POOL (unblock cpu cls_t f g).1 = PROCESS_POOL g ∧
  (ExecutorPool.initialized (THREAD_POOL g) = true →
   (unblock cpu cls_t f g).1 = g) ∧
  (ExecutorPool.initialized (THREAD_POOL g) = false →
   THREAD_POOL (unblock cpu cls_t f g).1
   = ExecutorPool.Pool (Some (length (ExecutorPool.heap (THREAD_POOL g))))
       (ExecutorPool.heap (THREAD_POOL g)
        ++ [ExecutorPool.Executor (Some (10 * CPU_COUNT cpu)%Z) None])).
Proof.
  intros Hwf Hcls Hlive. destruct g as [[[r|] h] pp];
    unfold unblock, ExecutorPool.initialized, ExecutorPool.initialize,
      ExecutorPool.wf in *; simpl in *.
  - destruct (lookup_lt_is_Some_2 h r Hwf) as [e He].
    unfold run_in_executor. simpl. rewrite He.
    rewrite (Hlive r e eq_refl He). done.
  - rewrite Hcls. simpl. unfold run_in_executor. simpl.
    rewrite lookup_app_r, Nat.sub_diag by done. done.
Qed.



(** X12. After an [initialize] of the thread pool that the executor class
    refused while the pool had an executor, [unblock] runs nothing: the
    pool counts as initialized, so no executor is built, and [submit] on
    the executor that was shut down raises [RuntimeError], for every call
    until the pool is initialized again or shut down. *)
Theorem unblock_after_refused_initialize
    (cpu : option Z) (cls_t : option Z → bool) (mw : option Z) f
    (g : pools) :
  ExecutorPool.wf (THREAD_POOL g) →
  ExecutorPool.initialized (THREAD_POOL g) = true →
  cls_t mw = false →
  unblock cpu cls_t f
    {| THREAD_POOL := (ExecutorPool.initialize cls_t mw (THREAD_POOL g)).1;
       PROCESS_POOL := PROCESS_POOL g |}
  = ({| THREAD_POOL := (ExecutorPool.initialize cls_t mw (THREAD_POOL g)).1;
        PROCESS_POOL := PROCESS_POOL g |},
     Raises (RuntimeError "cannot schedule new futures after shutdown")).
Proof.
  intros Hwf Hinit Hcls. destruct g as [[[r|] h] pp];
    unfold ExecutorPool.initialized, ExecutorPool.wf in *; simpl in *;
    [|done].
  destruct (lookup_lt_is_Some_2 h r Hwf) as [e He].
  unfold unblock, ExecutorPool.initialize, ExecutorPool.initialized,
    ExecutorPool.executor_shutdown; simpl.
  rewrite Hcls, He. simpl. unfold run_in_executor. simpl.
  by rewrite list_lookup_insert_eq.
Qed.

End UnblockProofs.

Lemma unblock_builds_the_pool_once_witness :
  ExecutorPool.wf (THREAD_POOL pools_init) ∧
  ExecutorPool.positive_size (Some (10 * CPU_COUNT (Some 4%Z))%Z) = true ∧
  (unblock (Some 4%Z) ExecutorPool.positive_size (Returns 7%Z) pools_init).2
  = Returns 7%Z.
Proof.
  split; [exact I|]. split; [reflexivity|].
  apply (unblock_builds_the_pool_once (Some 4%Z) ExecutorPool.positive_size
           (Returns 7%Z) pools_init);
    [exact I|reflexivity|].
  intros r e Hr. discriminate Hr.
Defined.


Lemma unblock_after_refused_initialize_witness :
  ExecutorPool.wf
    (THREAD_POOL
       (unblock (Some 4%Z) ExecutorPool.positive_size (Returns 1%Z)
          pools_init).1) ∧
  ExecutorPool.initialized
    (THREAD_POOL
       (unblock (Some 4%Z) ExecutorPool.positive_size (Returns 1%Z)
          pools_init).1) = true ∧
  ExecutorPool.positive_size (Some 0%Z) = false ∧
  (unblock (Some 4%Z) ExecutorPool.positive_size (Returns 2%Z)
     {| THREAD_POOL :=
          (ExecutorPool.initialize ExecutorPool.positive_size (Some 0%Z)
             (THREAD_POOL
                (unblock (Some 4%Z) ExecutorPool.positive_size (Returns 1%Z)
                   pools_init).1)).1;
        PROCESS_POOL :=
          PROCESS_POOL
            (unblock (Some 4%Z) ExecutorPool.positive_size (Returns 1%Z)
               pools_init).1 |}).2
  = Raises (RuntimeError "cannot schedule new futures after shutdown").
Proof.
  split; [vm_compute; lia|]. split; [reflexivity|]. split; [reflexivity|].
  exact (f_equal snd
           (unblock_after_refused_initialize (Some 4%Z)
              ExecutorPool.positive_size (Some 0%Z) (Returns 2%Z)
              (unblock (Some 4%Z) ExecutorPool.positive_size (Returns 1%Z)
                 pools_init).1
              ltac:(vm_compute; lia) eq_refl eq_refl)).
Defined.
